(** * retext: CST-to-tree construction and the plugin pipeline

    A shallow embedding of [index.js]: the tree builder [fromCST] and the
    three methods of the [Retext] prototype, [use], [parse] and [run].

    JavaScript values are a small inductive type, objects used as maps are
    [gmap]s, exceptions are an explicit [Abrupt] completion, and the
    collaborators that [index.js] only requires (the object model, the
    parser and the middleware runner) are either parameters or modelled
    from the specification, as marked at each definition. *)

From stdpp Require Import gmap strings list fin_maps pretty.

Open Scope string_scope.

(** ** JavaScript values and completions *)

(** The line feed of a string literal. *)
Definition LF : string := String (Ascii.ascii_of_nat 10) EmptyString.

(** A function object is known by its reference. *)
Definition fn_id := nat.

Inductive jsval :=
| VUndefined
| VNull
| VBool (b : bool)
| VNum (z : Z)
| VStr (s : string)
| VRef (addr : nat)
| VFun (f : fn_id).

(** [typeof v === 'function'] *)
Definition is_function (v : jsval) : bool :=
  match v with
  | VFun _ => true
  | _ => false
  end.

(** The string a value turns into under [+] with a string. *)
Definition to_string (v : jsval) : string :=
  match v with
  | VUndefined => "undefined"
  | VNull => "null"
  | VBool true => "true"
  | VBool false => "false"
  | VNum z => pretty z
  | VStr s => s
  | VRef _ => "[object Object]"
  | VFun _ => "function () {}"
  end.

(** An error object: the name of its class and its message. *)
Record error := Error { ename : string; emessage : string }.

Definition TypeError (msg : string) : error :=
  {| ename := "TypeError"; emessage := msg |}.

(** How a call ends: with a value, or with a thrown error. *)
Inductive completion (A : Type) :=
| Normal (a : A)
| Abrupt (e : error).
Arguments Normal {A} a.
Arguments Abrupt {A} e.

(** ** The concrete syntax tree *)

(** The [data] object of a CST node: its own properties, and the
    enumerable properties it inherits, which [for ... in] visits too. *)
Record dataobj := DataObj {
  own : gmap string jsval;
  inherited : gmap string jsval
}.

(** A CST node. A key that is absent from the object is [None]. An entry
    of [children] is [None] when it is a falsy value ([null], [undefined],
    a hole) and [Some c] when it is a node. *)
#[local] Unset Elimination Schemes.
Inductive cst := CST {
  type : string;
  children : option (list (option cst));
  value : option jsval;
  data : option dataobj
}.

#[local] Set Elimination Schemes.

(** ** The object model *)

(** What [new TextOM[type]()] hands back is decided by the object model,
    which is a parameter: the name of the node variant and the [data]
    namespace the constructor initialises. An object model maps a type
    to what the lookup [TextOM[type]] finds, [None] when it finds
    [undefined]. *)
Record ctor := Ctor {
  variant : string;
  init_data : gmap string jsval
}.

Definition object_model := string → option ctor.

(** A node of the tree. [ntext] is [None] until [fromString] is invoked. *)
#[local] Unset Elimination Schemes.
Inductive TreeNode := Node {
  ntype : string;
  nchildren : list TreeNode;
  ntext : option jsval;
  ndata : gmap string jsval
}.

#[local] Set Elimination Schemes.

(** [new C()]: an empty node of the variant. *)
Definition new_node (c : ctor) : TreeNode :=
  {| ntype := variant c; nchildren := []; ntext := None; ndata := init_data c |}.

(** Modelled from the spec: the object model's [append], absent from the
    source; [append(child)] adds [child] after the children the node has. *)
Definition append (node child : TreeNode) : TreeNode :=
  {| ntype := ntype node; nchildren := nchildren node ++ [child];
     ntext := ntext node; ndata := ndata node |}.

(** Modelled from the spec: the object model's [fromString], absent from
    the source; the node's textual content becomes the argument. *)
Definition fromString (node : TreeNode) (v : jsval) : TreeNode :=
  {| ntype := ntype node; nchildren := nchildren node;
     ntext := Some v; ndata := ndata node |}.

(** [node.data[attribute] = v] *)
Definition set_data (node : TreeNode) (attribute : string) (v : jsval) : TreeNode :=
  {| ntype := ntype node; nchildren := nchildren node;
     ntext := ntext node; ndata := <[attribute := v]> (ndata node) |}.

(** ** fromCST *)

(** The error of [new undefined()]; the engine words the message. *)
Definition not_a_constructor : error :=
  TypeError "TextOM[cst.type] is not a constructor".

(** [cst.value]: [undefined] when the key is absent. *)
Definition get_value (c : cst) : jsval :=
  match value c with
  | Some v => v
  | None => VUndefined
  end.

(** [has.call(data, attribute)] *)
Definition has (d : dataobj) (attribute : string) : bool :=
  bool_decide (is_Some (own d !! attribute)).

(** [data[attribute]]: own properties shadow inherited ones. *)
Definition get (d : dataobj) (attribute : string) : jsval :=
  match own d !! attribute with
  | Some v => v
  | None =>
    match inherited d !! attribute with
    | Some v => v
    | None => VUndefined
    end
  end.

(** The keys [for (attribute in data)] visits: the own ones, then the
    inherited ones that no own key shadows. *)
Definition for_in (d : dataobj) : list string :=
  (map_to_list (own d)).*1 ++
  filter (λ k, own d !! k = None) (map_to_list (inherited d)).*1.

(** The body of the [for ... in] loop over [data]. *)
Definition copy_attribute (d : dataobj) (node : TreeNode) (attribute : string) : TreeNode :=
  if has d attribute then set_data node attribute (get d attribute) else node.

(** The branch [if ('data' in cst)]. *)
Definition copy_data (c : cst) (node : TreeNode) : TreeNode :=
  match data c with
  | Some d => foldl (copy_attribute d) node (for_in d)
  | None => node
  end.

(** The [while] loop over [children[++index]], for a given way to build a
    child: it ends at the first falsy entry, which for an array without
    one is the [undefined] past its last element. *)
Definition while_children (build : cst → completion TreeNode) :=
  fix while (cs : list (option cst)) (node : TreeNode) : completion TreeNode :=
    match cs with
    | Some child :: rest =>
      match build child with
      | Normal built => while rest (append node built)
      | Abrupt e => Abrupt e
      end
    | None :: _ => Normal node
    | [] => Normal node
    end.

Section FromCST.

Variable TextOM : object_model.

(** [fromCST(TextOM, cst)] *)
Fixpoint fromCST (c : cst) : completion TreeNode :=
  match TextOM (type c) with
  | None => Abrupt not_a_constructor
  | Some k =>
    match children c with
    | Some cs =>
      match while_children fromCST cs (new_node k) with
      | Normal node => Normal (copy_data c node)
      | Abrupt e => Abrupt e
      end
    | None => Normal (copy_data c (fromString (new_node k) (get_value c)))
    end
  end.

End FromCST.

(** ** Plugins and the processing instance *)

Definition parser_fn := jsval → completion cst.

(** What an [attach] hook does with the instance it is handed: it attaches
    the plugins it depends on, it modifies the parser or the object model
    of the instance, and it may throw. *)
Inductive hook_cmd :=
| HUse (v : jsval)
| HThrow (e : error)
| HParser (change : parser_fn → parser_fn)
| HTextOM (change : object_model → object_model).

(** [plugin.attach]: falsy (absent, [undefined], [null]), truthy but not
    callable, or a function. *)
Inductive attach_prop :=
| AttachFalsy
| AttachNotCallable
| AttachHook (body : list hook_cmd).

(** What a plugin that takes a continuation tells the runner: it throws,
    or it invokes [next(err, node)]. *)
Inductive signal :=
| SigThrow (e : error)
| SigNext (err : option error) (replacement : option TreeNode).

(** The calling convention of a plugin: without a continuation it returns
    (the tree as it left it) or throws; with one, it signals later. *)
Inductive convention :=
| SyncFn (body : TreeNode → completion TreeNode)
| AsyncFn.

Record fn_obj := FnObj {
  attach : attach_prop;
  call : convention
}.

(** The function objects of the heap, by reference. *)
Definition heap := fn_id → fn_obj.

(** What is observed of an instance at work. *)
Inductive event :=
| EvParse (v : jsval)
| EvBuild (c : cst)
| EvAttach (f : fn_id)
| EvBegin (f : fn_id)
| EvComplete (f : fn_id)
| EvFail (f : fn_id) (e : error)
| EvCallback (err : option error) (node : option TreeNode).

(** An instance: [self.ware.fns], [self.parser], [self.TextOM], and the
    record of the [attach] hooks invoked on it so far. *)
Record Retext := MkRetext {
  fns : list fn_id;
  parser : parser_fn;
  TextOM : object_model;
  hook_log : list event
}.

(** [new Retext(parser)]: [ParseLatin] stands in for a falsy [parser]. *)
Definition new_Retext (ParseLatin : parser_fn) (TextOMConstructor : object_model)
    (parser : option parser_fn) : Retext :=
  {| fns := [];
     parser := match parser with Some p => p | None => ParseLatin end;
     TextOM := TextOMConstructor;
     hook_log := [] |}.

(** [fns.indexOf(plugin)] *)
Fixpoint indexOf (l : list fn_id) (f : fn_id) : Z :=
  match l with
  | [] => -1
  | g :: l' =>
    if decide (g = f) then 0
    else let i := indexOf l' f in if (i =? -1)%Z then (-1)%Z else (i + 1)%Z
  end.

(** Modelled from the spec: the registry's own [use], absent from the
    source; the plugin is appended to the ordered registry. *)
Definition ware_use (self : Retext) (f : fn_id) : Retext :=
  {| fns := fns self ++ [f]; parser := parser self; TextOM := TextOM self;
     hook_log := hook_log self |}.

Definition log_attach (self : Retext) (f : fn_id) : Retext :=
  {| fns := fns self; parser := parser self; TextOM := TextOM self;
     hook_log := hook_log self ++ [EvAttach f] |}.

(** [self.parser] and [self.TextOM] as a hook leaves them. *)
Definition set_parser (self : Retext) (change : parser_fn → parser_fn) : Retext :=
  {| fns := fns self; parser := change (parser self); TextOM := TextOM self;
     hook_log := hook_log self |}.

Definition set_TextOM (self : Retext) (change : object_model → object_model) : Retext :=
  {| fns := fns self; parser := parser self; TextOM := change (TextOM self);
     hook_log := hook_log self |}.

(** How a call of [use] ends; [Exhausted] when the nesting of hooks is
    deeper than the fuel. *)
Inductive answer :=
| Returned
| Threw (e : error)
| Exhausted.

(** The body of a hook, given what [self.use] does. *)
Definition run_hook (self_use : jsval → Retext → answer * Retext) :=
  fix go (body : list hook_cmd) (self : Retext) : answer * Retext :=
    match body with
    | [] => (Returned, self)
    | HUse v :: body' =>
      match self_use v self with
      | (Returned, self') => go body' self'
      | stop => stop
      end
    | HThrow e :: _ => (Threw e, self)
    | HParser change :: body' => go body' (set_parser self change)
    | HTextOM change :: body' => go body' (set_TextOM self change)
    end.

Definition use_message (plugin : jsval) : string :=
  "Illegal invocation: `" +:+ to_string plugin +:+ "` " +:+
  "is not a valid argument for `Retext#use(plugin)`".

Section Plugins.

Variable H : heap.

(** [Retext.prototype.use] *)
Fixpoint use (fuel : nat) (plugin : jsval) (self : Retext) : answer * Retext :=
  match plugin with
  | VFun f =>
    if (indexOf (fns self) f =? -1)%Z then
      let self' := ware_use self f in
      match attach (H f) with
      | AttachFalsy => (Returned, self')
      | AttachNotCallable => (Threw (TypeError "plugin.attach is not a function"), self')
      | AttachHook body =>
        match fuel with
        | 0 => (Exhausted, self')
        | S fuel' => run_hook (use fuel') body (log_attach self' f)
        end
      end
    else (Returned, self)
  | _ => (Threw (TypeError (use_message plugin)), self)
  end.

(** ** The runner *)

(** Where a run stands: waiting for the continuation of the plugin at
    position [pos], with [rest] still to come, or over. *)
Inductive phase :=
| Waiting (pos : nat) (f : fn_id) (rest : list fn_id)
| Finished.

Record run_state := RunState {
  phase_of : phase;
  node_of : TreeNode;
  trace : list event
}.

(** Modelled from the spec: the middleware runner, absent from the source.
    Plugins are taken in registry order. One that takes no continuation
    is over when it returns; one that takes a continuation is waited for.
    A failure ends the run with the callback given the error and no node;
    past the last plugin the callback is given no error and the node. *)
Fixpoint drive (pos : nat) (rest : list fn_id) (node : TreeNode) (tr : list event) : run_state :=
  match rest with
  | [] => RunState Finished node (tr ++ [EvCallback None (Some node)])
  | f :: rest' =>
    match call (H f) with
    | SyncFn body =>
      match body node with
      | Normal node' => drive (S pos) rest' node' (tr ++ [EvBegin f; EvComplete f])
      | Abrupt e =>
        RunState Finished node (tr ++ [EvBegin f; EvFail f e; EvCallback (Some e) None])
      end
    | AsyncFn => RunState (Waiting pos f rest') node (tr ++ [EvBegin f])
    end
  end.

(** Modelled from the spec: the runner's [run], absent from the source. *)
Definition ware_run (fns : list fn_id) (node : TreeNode) : run_state :=
  drive 0 fns node [].

(** Modelled from the spec: what the runner does with a signal of the
    plugin at position [tok]. Only the plugin waited for is listened to;
    a plugin that signals again, or after the run is over, is ignored, so
    that the callback is never invoked twice. *)
Definition deliver (st : run_state) (s : nat * signal) : run_state :=
  match phase_of st with
  | Waiting pos f rest =>
    if decide (s.1 = pos) then
      match s.2 with
      | SigThrow e | SigNext (Some e) _ =>
        RunState Finished (node_of st) (trace st ++ [EvFail f e; EvCallback (Some e) None])
      | SigNext None replacement =>
        drive (S pos) rest (default (node_of st) replacement) (trace st ++ [EvComplete f])
      end
    else st
  | Finished => st
  end.

Definition run_message (done : jsval) : string :=
  "Illegal invocation: `" +:+ to_string done +:+ "` " +:+
  "is not a valid argument for " +:+
  "`Retext#run(node, done)`." +:+ LF +:+
  "This breaking change occurred in 0.2.0-rc.1, see GitHub for " +:+
  "more information.".

(** [Retext.prototype.run]: the state the run is left in when the call
    returns, or the error it throws. *)
Definition run (self : Retext) (node : TreeNode) (done : jsval) : completion run_state :=
  if is_function done then Normal (ware_run (fns self) node)
  else Abrupt (TypeError (run_message done)).

Definition parse_message (done : jsval) : string :=
  "Illegal invocation: `" +:+ to_string done +:+ "` " +:+
  "is not a valid argument for `Retext#parse(value, done)`." +:+ LF +:+
  "This breaking change occurred in 0.2.0-rc.1, see GitHub for " +:+
  "more information.".

(** [Retext.prototype.parse]: what happened before the pipeline (the
    parser invoked, the tree built), and how the call ends. *)
Definition parse (self : Retext) (value : jsval) (done : jsval)
    : list event * completion run_state :=
  if is_function done then
    match parser self value with
    | Normal c =>
      match fromCST (TextOM self) c with
      | Normal node => ([EvParse value; EvBuild c], run self node done)
      | Abrupt e => ([EvParse value; EvBuild c], Abrupt e)
      end
    | Abrupt e => ([EvParse value], Abrupt e)
    end
  else ([], Abrupt (TypeError (parse_message done))).

(** The state of a run after the signals of a schedule, in order. *)
Definition after (st : run_state) (schedule : list (nat * signal)) : run_state :=
  foldl deliver st schedule.

End Plugins.

(** ** Counting events *)

Fixpoint count (p : event → bool) (l : list event) : nat :=
  match l with
  | [] => 0
  | ev :: l' => (if p ev then 1 else 0) + count p l'
  end.

Definition is_callback (ev : event) : bool :=
  match ev with EvCallback _ _ => true | _ => false end.

Definition is_attach (f : fn_id) (ev : event) : bool :=
  match ev with EvAttach g => bool_decide (g = f) | _ => false end.


(** The plugins begun, in the order of the trace. *)
Fixpoint begun (l : list event) : list fn_id :=
  match l with
  | [] => []
  | EvBegin f :: l' => f :: begun l'
  | _ :: l' => begun l'
  end.

(** ** Well-formed input *)

(** A well-formed CST: every node has [children] or a [value] string, not
    both and not neither, and every entry of [children] is a node. *)
Fixpoint well_formed (c : cst) : bool :=
  match children c, value c with
  | Some cs, None =>
    forallb (λ oc, match oc with Some child => well_formed child | None => false end) cs
  | None, Some (VStr _) => true
  | _, _ => false
  end.

(** The object model has a constructor for every [type] in the CST. *)
Fixpoint registered (om : object_model) (c : cst) : bool :=
  match om (type c) with
  | None => false
  | Some _ =>
    match children c with
    | Some cs =>
      forallb (λ oc, match oc with Some child => registered om child | None => true end) cs
    | None => true
    end
  end.

(** [built om oc node]: the entry [oc] is a CST node and [node] is what
    [fromCST] builds from it. *)
Definition built (om : object_model) (oc : option cst) (node : TreeNode) : Prop :=
  ∃ c, oc = Some c ∧ fromCST om c = Normal node.

(** The text of the leaves, left to right. *)
Fixpoint leaf_text (n : TreeNode) : string :=
  match ntext n with
  | Some v => to_string v
  | None => ""
  end +:+ (fix go (l : list TreeNode) : string :=
             match l with
             | [] => ""
             | x :: l' => leaf_text x +:+ go l'
             end) (nchildren n).

(** ** The shape of a run *)

(** The events of plugins that ran to completion, one after the other. *)
Fixpoint completed (done : list fn_id) : list event :=
  match done with
  | [] => []
  | f :: done' => EvBegin f :: EvComplete f :: completed done'
  end.

(** The invocations of the callback in a trace. *)
Fixpoint callbacks (l : list event) : list event :=
  match l with
  | [] => []
  | ev :: l' => if is_callback ev then ev :: callbacks l' else callbacks l'
  end.

(** The states a run over the registry [fns] can be in: waiting for the
    plugin that comes after those completed; over because that plugin
    failed; or over with every plugin completed. *)
Inductive run_shape (H : heap) (fns : list fn_id) : run_state → Prop :=
| shape_waiting done f rest node :
    fns = (done ++ f :: rest)%list →
    call (H f) = AsyncFn →
    run_shape H fns
      (RunState (Waiting (length done) f rest) node (completed done ++ [EvBegin f]))
| shape_failed done f rest e node :
    fns = (done ++ f :: rest)%list →
    run_shape H fns
      (RunState Finished node
         (completed done ++ [EvBegin f; EvFail f e; EvCallback (Some e) None]))
| shape_succeeded node :
    run_shape H fns
      (RunState Finished node (completed fns ++ [EvCallback None (Some node)])).

(** ** The run, plugin by plugin *)

(** The first signal in a schedule of the plugin at position [pos], with
    the signals that come after it. *)
Fixpoint first_signal (pos : nat) (schedule : list (nat * signal))
    : option (signal * list (nat * signal)) :=
  match schedule with
  | [] => None
  | s :: schedule' =>
    if decide (s.1 = pos) then Some (s.2, schedule') else first_signal pos schedule'
  end.

(** Modelled from the spec: what is to be observed of a run, read plugin
    by plugin in the order of the registry. A plugin is begun with the
    node as the plugins before it left it. One that takes no continuation
    completes when it returns and fails when it throws. One that takes a
    continuation is waited for: nothing more happens until its first
    signal from then on, which completes it, with the node or a
    replacement, or fails it. A failure is followed by the callback with
    the error and no node, and by nothing else; the last completion is
    followed by the callback with no error and the node. *)
Fixpoint pipeline (H : heap) (pos : nat) (plugins : list fn_id) (node : TreeNode)
    (schedule : list (nat * signal)) : list event :=
  match plugins with
  | [] => [EvCallback None (Some node)]
  | f :: later =>
    EvBegin f ::
    match call (H f) with
    | SyncFn body =>
      match body node with
      | Normal node' => EvComplete f :: pipeline H (S pos) later node' schedule
      | Abrupt e => [EvFail f e; EvCallback (Some e) None]
      end
    | AsyncFn =>
      match first_signal pos schedule with
      | None => []
      | Some (SigThrow e, _) | Some (SigNext (Some e) _, _) =>
        [EvFail f e; EvCallback (Some e) None]
      | Some (SigNext None replacement, schedule') =>
        EvComplete f :: pipeline H (S pos) later (default node replacement) schedule'
      end
    end
  end.

(** ** What a hook leaves behind *)





(** Plugin 8 has a hook that teaches the object model the type
    [EmojiNode] and then attaches plugin 3. *)
Definition with_emoji (om : object_model) : object_model := λ ty,
  if bool_decide (ty = "EmojiNode") then Some (Ctor "EmojiNode" ∅) else om ty.

Definition init_heap : heap := λ f,
  match f with
  | 8 => FnObj (AttachHook [HTextOM with_emoji; HUse (VFun 3)]) AsyncFn
  | _ => FnObj AttachFalsy AsyncFn
  end.

(** ** Attaching, step by step *)

(** One step of an attachment: a plugin that the registry does not hold
    is appended to it, and when it has a hook, the hook is recorded as
    invoked; or a hook modifies the parser or the object model. *)
Inductive attach_step : Retext → Retext → Prop :=
| step_push self g :
    g ∉ fns self → attach_step self (ware_use self g)
| step_hook self g :
    g ∉ fns self → attach_step self (log_attach (ware_use self g) g)
| step_parser self change :
    attach_step self (set_parser self change)
| step_TextOM self change :
    attach_step self (set_TextOM self change).



(** ** Sample inputs *)

Definition sample_om : object_model := λ ty,
  if bool_decide (ty ∈ ["RootNode"; "SentenceNode"; "WordNode"; "PunctuationNode"])
  then Some (Ctor ty ∅) else None.

Definition leaf (ty s : string) : cst := CST ty None (Some (VStr s)) None.

Definition parent (ty : string) (cs : list cst) : cst :=
  CST ty (Some (Some <$> cs)) None None.

(** The CST of the text [Cat.] *)
Definition cat_cst : cst :=
  parent "RootNode"
    [parent "SentenceNode" [leaf "WordNode" "Cat"; leaf "PunctuationNode" "."]].

(** A leaf with own and inherited [data], for a constructor that
    initialises [data] itself. *)
Definition sample_data : dataobj :=
  {| own := {[ "lang" := VStr "en"; "ref" := VRef 7 ]};
     inherited := {[ "lang" := VStr "xx"; "toString" := VFun 0 ]} |}.

Definition data_ctor : ctor :=
  {| variant := "WordNode";
     init_data := {[ "lang" := VStr "nl"; "kept" := VNum 1 ]} |}.

Definition data_om : object_model := λ ty,
  if bool_decide (ty = "WordNode") then Some data_ctor else None.

Definition data_cst : cst := CST "WordNode" None (Some (VStr "Cat")) (Some sample_data).

Definition boom : error := {| ename := "Error"; emessage := "boom" |}.

(** Plugins 1 and 2 attach each other from their hooks; 1 and 3 take no
    continuation, 2 takes one, 4 throws. *)
Definition sample_heap : heap := λ f,
  match f with
  | 1 => FnObj (AttachHook [HUse (VFun 2)]) (SyncFn (λ n, Normal n))
  | 2 => FnObj (AttachHook [HUse (VFun 1)]) AsyncFn
  | 3 => FnObj AttachFalsy (SyncFn (λ n, Normal (set_data n "seen" (VBool true))))
  | 4 => FnObj AttachFalsy (SyncFn (λ _, Abrupt boom))
  | _ => FnObj AttachFalsy AsyncFn
  end.

Definition sample_instance : Retext :=
  new_Retext (λ _, Normal cat_cst) sample_om None.

Definition failing_instance : Retext :=
  new_Retext (λ _, Normal cat_cst) sample_om (Some (λ _, Abrupt boom)).

Definition empty_node : TreeNode :=
  {| ntype := "RootNode"; nchildren := []; ntext := None; ndata := ∅ |}.

(** ** What the builder visits *)

(** The entries of [children] that the loop of [fromCST] reaches: the
    nodes before the first falsy entry. *)
Fixpoint visited (cs : list (option cst)) : list cst :=
  match cs with
  | Some child :: rest => child :: visited rest
  | _ => []
  end.

(** The object model has a constructor for the type of every node that
    [fromCST] visits. *)
Fixpoint buildable (om : object_model) (c : cst) : bool :=
  match om (type c) with
  | None => false
  | Some _ =>
    match children c with
    | Some cs =>
      (fix go (cs : list (option cst)) : bool :=
         match cs with
         | Some child :: rest => buildable om child && go rest
         | _ => true
         end) cs
    | None => true
    end
  end.

(** The values handed to [fromString] in a tree, left to right. *)
Fixpoint leaves (n : TreeNode) : list jsval :=
  (match ntext n with
   | Some v => [v]
   | None => []
   end ++
   (fix go (l : list TreeNode) : list jsval :=
      match l with
      | [] => []
      | x :: l' => (leaves x ++ go l')%list
      end) (nchildren n))%list.

(** The [value]s of the nodes of a CST that [fromCST] turns into text,
    left to right: those of the visited nodes without [children]. *)
Fixpoint cst_leaves (c : cst) : list jsval :=
  match children c with
  | Some cs =>
    (fix go (cs : list (option cst)) : list jsval :=
       match cs with
       | Some child :: rest => (cst_leaves child ++ go rest)%list
       | _ => []
       end) cs
  | None => [get_value c]
  end.

(** The CST node with another [data], or none. *)
Definition with_data (c : cst) (d : option dataobj) : cst :=
  {| type := type c; children := children c; value := value c; data := d |}.

(** ** A sequence of attachments *)

(** [use] called with one argument after the other, on the instance as
    the call before left it, whether that call returned or threw. *)
Definition use_each (H : heap) (fuel : nat) (plugins : list jsval) (self : Retext) : Retext :=
  foldl (λ s v, (use H fuel v s).2) self plugins.

(** Plugin 5 has a hook that throws after attaching plugin 3; the
    [attach] of plugin 6 is not a function. *)
Definition faulty_heap : heap := λ f,
  match f with
  | 5 => FnObj (AttachHook [HUse (VFun 3); HThrow boom; HUse (VFun 7)]) AsyncFn
  | 6 => FnObj AttachNotCallable AsyncFn
  | _ => FnObj AttachFalsy AsyncFn
  end.

(** An instance whose parser yields a node of a type that the object
    model does not know. *)
Definition emoji_instance : Retext :=
  new_Retext (λ _, Normal (parent "RootNode" [leaf "EmojiNode" ":)"])) sample_om None.

(** ** The constructor and the objects it links *)

(** What holds properties: an object, known by its address, or a
    function. *)
Inductive obj :=
| Obj (addr : nat)
| Fn (f : fn_id).

#[global] Instance obj_eq_dec : EqDecision obj.
Proof. solve_decision. Defined.

(** The properties of the objects, and the first address not in use. *)
Record store := Store {
  next : nat;
  props : obj → string → jsval
}.

(** [o.key = v] *)
Definition set_prop (st : store) (o : obj) (key : string) (v : jsval) : store :=
  {| next := next st;
     props := λ o' key', if decide (o' = o ∧ key' = key) then v else props st o' key' |}.

(** [new C()] for the constructors that [index.js] requires: a new
    object. What those constructors put into it is theirs to say and is
    left out. *)
Definition new_object (st : store) : nat * store :=
  (next st, {| next := S (next st); props := props st |}).

(** [!v] is false *)
Definition truthy (v : jsval) : bool :=
  match v with
  | VUndefined | VNull => false
  | VBool b => b
  | VNum z => negb (z =? 0)%Z
  | VStr s => negb (String.eqb s "")
  | VRef _ | VFun _ => true
  end.

(** The object a value stands for, when it is not a primitive. *)
Definition as_object (v : jsval) : option obj :=
  match v with
  | VRef addr => Some (Obj addr)
  | VFun f => Some (Fn f)
  | _ => None
  end.

(** The error of an assignment to a property of a primitive in strict
    code; the engine words the message. *)
Definition not_an_object : error :=
  TypeError "Cannot create property 'TextOM' on a primitive value".

(** [new Retext(parser)], on the store: the address of the instance, or
    the error thrown. *)
Definition Retext_constructor (parser : jsval) (st : store) : completion nat * store :=
  let '(self, st) := new_object st in
  let '(parser, st) :=
    if truthy parser then (parser, st)
    else let '(ParseLatin, st) := new_object st in (VRef ParseLatin, st) in
  let '(TextOM, st) := new_object st in
  let '(ware, st) := new_object st in
  let st := set_prop st (Obj self) "ware" (VRef ware) in
  let st := set_prop st (Obj self) "parser" parser in
  let st := set_prop st (Obj self) "TextOM" (VRef TextOM) in
  match as_object parser with
  | Some p =>
    let st := set_prop st p "TextOM" (VRef TextOM) in
    let st := set_prop st (Obj TextOM) "parser" parser in
    (Normal self, st)
  | None => (Abrupt not_an_object, st)
  end.

(** A store with one object, at address 0, and no property set. *)
Definition sample_store : store :=
  {| next := 1; props := λ _ _, VUndefined |}.

(** A sentence whose [children] hold a falsy entry, with a node of an
    unknown type behind it; and a word with neither [children] nor
    [value]. *)
Definition holey_cst : cst :=
  CST "SentenceNode"
    (Some [Some (leaf "WordNode" "Cat"); None; Some (leaf "EmojiNode" ":)")])
    None None.

Definition bare_cst : cst := CST "WordNode" None None None.

(** * Properties *)

Close Scope string_scope.

(** Induction on a CST that reaches the nodes among the children. *)
Section cst_induction.

Variable P : cst → Prop.
Hypothesis P_leaf : ∀ ty v d, P (CST ty None v d).
Hypothesis P_parent : ∀ ty cs v d,
  Forall (λ oc, ∀ c, oc = Some c → P c) cs → P (CST ty (Some cs) v d).

Lemma cst_nested_ind : ∀ c, P c.
Proof.
  fix IH 1. intros [ty [cs|] v d]; [|apply P_leaf].
  apply P_parent. induction cs as [|[x|] cs IHcs]; constructor; try assumption.
  - intros c [= <-]. apply IH.
  - intros c [=].
Qed.

End cst_induction.

(** ** The tree builder *)

Section Builder.

Variable om : object_model.

Lemma copy_attribute_shape d node a :
  ntype (copy_attribute d node a) = ntype node ∧
  nchildren (copy_attribute d node a) = nchildren node ∧
  ntext (copy_attribute d node a) = ntext node.
Proof. unfold copy_attribute. by destruct (has d a). Qed.

Lemma copy_data_shape c node :
  ntype (copy_data c node) = ntype node ∧
  nchildren (copy_data c node) = nchildren node ∧
  ntext (copy_data c node) = ntext node.
Proof.
  unfold copy_data. destruct (data c) as [d|]; [|done].
  generalize (for_in d). intros l. revert node.
  induction l as [|a l IH]; intros node; [done|].
  cbn [foldl]. destruct (IH (copy_attribute d node a)) as (-> & -> & ->).
  apply copy_attribute_shape.
Qed.

(** The loop leaves the node as it was, but for the children it appends. *)
Lemma while_children_frame build cs node node' :
  while_children build cs node = Normal node' →
  ntype node' = ntype node ∧ ntext node' = ntext node ∧ ndata node' = ndata node.
Proof.
  revert node. induction cs as [|[child|] cs IH]; intros node; cbn.
  - by intros [= <-].
  - destruct (build child) as [b|e]; [|done].
    intros Hw. by destruct (IH _ Hw) as (-> & -> & ->).
  - by intros [= <-].
Qed.

(** With a node at every entry, and every one of them built, the loop
    appends what is built, entry by entry. *)
Lemma while_children_nodes cs node :
  Forall (λ oc, ∃ n, built om oc n) cs →
  ∃ bs, while_children (fromCST om) cs node =
          Normal {| ntype := ntype node; nchildren := nchildren node ++ bs;
                    ntext := ntext node; ndata := ndata node |} ∧
        Forall2 (built om) cs bs.
Proof.
  intros Hall. revert node.
  induction Hall as [|oc cs (n & c & -> & Hn) _ IH]; intros node.
  - exists []. cbn. rewrite app_nil_r. by destruct node.
  - destruct (IH (append node n)) as (bs & Hw & Hbs).
    exists (n :: bs). split.
    + cbn. rewrite Hn, Hw. cbn. by rewrite <- app_assoc.
    + constructor; [by exists c | done].
Qed.

(** The unfolding of [fromCST] at a node. *)
Lemma fromCST_unfold c :
  fromCST om c =
  match om (type c) with
  | None => Abrupt not_a_constructor
  | Some k =>
    match children c with
    | Some cs =>
      match while_children (fromCST om) cs (new_node k) with
      | Normal node => Normal (copy_data c node)
      | Abrupt e => Abrupt e
      end
    | None => Normal (copy_data c (fromString (new_node k) (get_value c)))
    end
  end.
Proof. by destruct c. Qed.

(** [fromCST] returns a node for every well-formed CST whose types the
    object model knows. *)
Lemma fromCST_total c :
  well_formed c = true → registered om c = true → ∃ n, fromCST om c = Normal n.
Proof.
  induction c as [ty v d|ty cs v d IH] using cst_nested_ind;
    intros Hwf Hreg; rewrite fromCST_unfold; cbn in *;
    destruct (om ty) as [k|]; try done; [by eexists|].
  destruct v; [done|].
  assert (Forall (λ oc, ∃ n, built om oc n) cs) as Hall.
  { clear -IH Hwf Hreg. induction IH as [|[child|] cs Hc _ IHcs]; [done| |done].
    cbn in Hwf, Hreg. apply andb_true_iff in Hwf as [? ?], Hreg as [? ?].
    constructor; [|by apply IHcs].
    destruct (Hc child) as [n Hn]; [done..|]. exists n, child. done. }
  destruct (while_children_nodes cs (new_node k) Hall) as (bs & -> & _).
  by eexists.
Qed.

Lemma children_all_built cs :
  forallb (λ oc, match oc with Some child => well_formed child | None => false end) cs = true →
  forallb (λ oc, match oc with Some child => registered om child | None => true end) cs = true →
  Forall (λ oc, ∃ n, built om oc n) cs.
Proof.
  induction cs as [|[child|] cs IH]; cbn; intros Hwf Hreg; [done| |done].
  apply andb_true_iff in Hwf as [? ?], Hreg as [? ?].
  constructor; [|by apply IH].
  destruct (fromCST_total child) as [n Hn]; [done..|]. by exists n, child.
Qed.

(** C1. For a well-formed CST over types the object model knows, [fromCST]
    returns a node. When the CST node carries [children], the children of
    the node are what [fromCST] builds from the CST children, one for
    one and in their order, and [fromString] was not invoked; otherwise
    the text of the node is the [value] of the CST node and it has no
    children. *)
Theorem fromCST_children_or_value c :
  well_formed c = true → registered om c = true →
  ∃ n, fromCST om c = Normal n ∧
       match children c with
       | Some cs => Forall2 (built om) cs (nchildren n) ∧ ntext n = None
       | None => ntext n = value c ∧ nchildren n = []
       end.
Proof.
  intros Hwf Hreg. rewrite fromCST_unfold.
  destruct c as [ty cs v d]; cbn in *.
  destruct (om ty) as [k|]; [|done].
  destruct cs as [cs|].
  - destruct v; [done|].
    destruct (while_children_nodes cs (new_node k)) as (bs & -> & Hbs);
      [by apply children_all_built|].
    eexists; split; [done|].
    match goal with
    | |- context [copy_data ?c0 ?n0] => destruct (copy_data_shape c0 n0) as (_ & -> & ->)
    end.
    done.
  - destruct v as [[]|]; try done.
    eexists; split; [done|].
    match goal with
    | |- context [copy_data ?c0 ?n0] => destruct (copy_data_shape c0 n0) as (_ & -> & ->)
    end.
    done.
Qed.

(** C2, as amended. For a CST node whose [type] has no constructor in the
    object model, [fromCST] throws the [TypeError] of [new] applied to
    [undefined], whatever else the node holds: no node is returned. *)
Theorem fromCST_unknown_type c :
  om (type c) = None → fromCST om c = Abrupt not_a_constructor.
Proof. intros Hty. rewrite fromCST_unfold. by rewrite Hty. Qed.

(** What the loop over [data] leaves under a key. *)
Lemma copy_attributes_lookup d l node a :
  ndata (foldl (copy_attribute d) node l) !! a =
  match own d !! a with
  | Some v => if decide (a ∈ l) then Some v else ndata node !! a
  | None => ndata node !! a
  end.
Proof.
  revert node. induction l as [|x l IH]; intros node; cbn [foldl].
  - destruct (own d !! a); [|done]. by rewrite decide_False by set_solver.
  - rewrite IH. unfold copy_attribute, has, get.
    destruct (own d !! a) as [v|] eqn:Ha.
    + destruct (decide (a ∈ l)) as [Hl|Hl].
      * by rewrite decide_True by set_solver.
      * destruct (decide (a = x)) as [->|Hne].
        -- rewrite decide_True by set_solver.
           rewrite Ha. rewrite bool_decide_eq_true_2 by done. cbn.
           by rewrite lookup_insert_eq.
        -- rewrite decide_False by (rewrite elem_of_cons; tauto).
           case_bool_decide; [|done]. cbn. by rewrite lookup_insert_ne.
    + case_bool_decide as Hx; [|done]. cbn.
      rewrite lookup_insert_ne; [done|]. intros ->. rewrite Ha in Hx. by destruct Hx.
Qed.

Lemma own_key_visited d a v : own d !! a = Some v → a ∈ for_in d.
Proof.
  intros Ha. unfold for_in. apply elem_of_app. left.
  apply list_elem_of_fmap. exists (a, v). split; [done|].
  by apply elem_of_map_to_list.
Qed.

Lemma copy_data_lookup c node a :
  ndata (copy_data c node) !! a =
  match data c with
  | Some d => match own d !! a with Some v => Some v | None => ndata node !! a end
  | None => ndata node !! a
  end.
Proof.
  unfold copy_data. destruct (data c) as [d|]; [|done].
  rewrite copy_attributes_lookup. destruct (own d !! a) as [v|] eqn:Ha; [|done].
  rewrite decide_True; [done|]. by eapply own_key_visited.
Qed.

(** C8. When the CST node carries [data], the [data] of the node built
    holds, under every key, the value of the own property of that name
    when there is one (the same value, not a copy of it), and otherwise
    what the constructor had put there: inherited properties are not
    copied, and an own property replaces what the constructor had under
    its key. Without [data], the namespace is as the constructor left
    it. *)
Theorem fromCST_data c k n :
  om (type c) = Some k → fromCST om c = Normal n →
  match data c with
  | Some d =>
    ∀ a, ndata n !! a =
         match own d !! a with Some v => Some v | None => init_data k !! a end
  | None => ndata n = init_data k
  end.
Proof.
  intros Hk. rewrite fromCST_unfold, Hk.
  assert (∀ node, ndata node = init_data k →
            match data c with
            | Some d =>
              ∀ a, ndata (copy_data c node) !! a =
                   match own d !! a with Some v => Some v | None => init_data k !! a end
            | None => ndata (copy_data c node) = init_data k
            end) as Hcopy.
  { intros node Hnode. destruct (data c) as [d|] eqn:Hd.
    - intros a. rewrite copy_data_lookup, Hd, Hnode. done.
    - unfold copy_data. by rewrite Hd. }
  destruct (children c) as [cs|].
  - destruct (while_children _ cs _) as [node|e] eqn:Hw; [|done].
    intros [= <-]. apply Hcopy.
    by destruct (while_children_frame _ _ _ _ Hw) as (_ & _ & ->).
  - intros [= <-]. by apply Hcopy.
Qed.

Lemma while_children_falsy build (pre post : list (option cst)) node :
  while_children build (pre ++ None :: post)%list node = while_children build pre node.
Proof.
  revert node. induction pre as [|[child|] pre IH]; intros node; cbn; try done.
  destruct (build child); [apply IH | done].
Qed.

(** C9. A falsy entry among the [children] ends the loop as the end of
    the array does: [fromCST] gives what it gives for the entries before
    it, and the entries after it are dropped, whatever they are. *)
Theorem fromCST_stops_at_falsy ty (pre post : list (option cst)) v d :
  fromCST om (CST ty (Some (pre ++ None :: post)%list) v d) =
  fromCST om (CST ty (Some pre) v d).
Proof.
  rewrite !fromCST_unfold. cbn. destruct (om ty) as [k|]; [|done].
  rewrite while_children_falsy.
  destruct (while_children (fromCST om) pre (new_node k)); [|done].
  by unfold copy_data.
Qed.

(** C10. A CST node with both [children] and [value] is built as if it
    had no [value]: the outcome is the same, with no error on account of
    the [value], and [fromString] is not invoked. The text of a node built
    by [fromCST] is set only when the CST node has no [children] key. *)
Theorem fromCST_children_over_value :
  (∀ ty cs v d,
     fromCST om (CST ty (Some cs) (Some v) d) = fromCST om (CST ty (Some cs) None d)) ∧
  (∀ c n, fromCST om c = Normal n → ntext n ≠ None → children c = None).
Proof.
  split.
  - intros ty cs v d. rewrite !fromCST_unfold. cbn. destruct (om ty) as [k|]; [|done].
    destruct (while_children (fromCST om) cs (new_node k)); [|done].
    by unfold copy_data.
  - intros c n. rewrite fromCST_unfold.
    destruct (om (type c)) as [k|]; [|done].
    destruct (children c) as [cs|]; [|done].
    destruct (while_children _ cs _) as [node|e] eqn:Hw; [|done].
    intros [= <-] Htext. exfalso. apply Htext.
    destruct (copy_data_shape c node) as (_ & _ & ->).
    by destruct (while_children_frame _ _ _ _ Hw) as (_ & -> & _).
Qed.

End Builder.

(** ** The runner *)

Section Runner.

Variable H : heap.

Lemma completed_app (l1 l2 : list fn_id) :
  completed (l1 ++ l2) = (completed l1 ++ completed l2)%list.
Proof. induction l1 as [|f l1 IH]; cbn; [done|]. by rewrite IH. Qed.

Lemma completed_snoc (done : list fn_id) f :
  completed (done ++ [f]) = (completed done ++ [EvBegin f; EvComplete f])%list.
Proof. by rewrite completed_app. Qed.

(** Driving the plugins that remain keeps the run in shape. *)
Lemma drive_shape fns rest : ∀ done node,
  fns = (done ++ rest)%list →
  run_shape H fns (drive H (length done) rest node (completed done)).
Proof.
  induction rest as [|f rest IH]; intros done node Hfns; cbn.
  - rewrite app_nil_r in Hfns. subst done. constructor.
  - destruct (call (H f)) as [body|] eqn:Hcall.
    + destruct (body node) as [node'|e].
      * rewrite <- completed_snoc.
        replace (S (length done)) with (length (done ++ [f])) by (rewrite length_app; cbn; lia).
        apply IH. by rewrite <- app_assoc.
      * by econstructor.
    + by constructor.
Qed.

Lemma deliver_shape fns st s :
  run_shape H fns st → run_shape H fns (deliver H st s).
Proof.
  intros Hst. destruct Hst as [done f rest node Hfns Hcall|done f rest e node Hfns|node];
    unfold deliver; cbn; try by constructor.
  - destruct (decide (s.1 = length done)) as [_|_]; [|by constructor].
    assert (∀ e, run_shape H fns
              (RunState Finished node
                 ((completed done ++ [EvBegin f]) ++ [EvFail f e; EvCallback (Some e) None])))
      as Hfail.
    { intros e. rewrite <- app_assoc. cbn. by econstructor. }
    destruct s.2 as [e|[e|] r]; [apply Hfail..|].
    rewrite <- app_assoc. cbn. rewrite <- completed_snoc.
    replace (S (length done)) with (length (done ++ [f])) by (rewrite length_app; cbn; lia).
    apply drive_shape. by rewrite <- app_assoc.
  - by econstructor.
Qed.

Lemma after_shape fns node schedule :
  run_shape H fns (after H (ware_run H fns node) schedule).
Proof.
  unfold after.
  assert (run_shape H fns (ware_run H fns node)) as Hst
    by apply (drive_shape fns fns [] node eq_refl).
  revert Hst. generalize (ware_run H fns node).
  induction schedule as [|s schedule IH]; intros st Hst; cbn; [done|].
  apply IH. by apply deliver_shape.
Qed.

Lemma callbacks_app (l1 l2 : list event) :
  callbacks (l1 ++ l2) = (callbacks l1 ++ callbacks l2)%list.
Proof.
  induction l1 as [|ev l1 IH]; cbn; [done|].
  destruct (is_callback ev); cbn; by rewrite IH.
Qed.

Lemma callbacks_completed done : callbacks (completed done) = [].
Proof. induction done as [|f done IH]; cbn; done. Qed.

Lemma begun_app (l1 l2 : list event) : begun (l1 ++ l2) = (begun l1 ++ begun l2)%list.
Proof.
  induction l1 as [|ev l1 IH]; cbn; [done|].
  destruct ev; cbn; by rewrite IH.
Qed.

Lemma begun_completed done : begun (completed done) = done.
Proof. induction done as [|f done IH]; cbn; [done|]. by rewrite IH. Qed.

Lemma completed_no_failure done f e : EvFail f e ∉ completed done.
Proof.
  induction done as [|g done IH]; cbn; [apply not_elem_of_nil|].
  rewrite !not_elem_of_cons. done.
Qed.

(** A plugin that takes no continuation and throws fails the run. *)
Lemma drive_sync_throw pos f rest node tr body e :
  call (H f) = SyncFn body → body node = Abrupt e →
  drive H pos (f :: rest) node tr =
  RunState Finished node (tr ++ [EvBegin f; EvFail f e; EvCallback (Some e) None]).
Proof. intros Hcall Hbody. cbn. by rewrite Hcall, Hbody. Qed.

Lemma after_finished st schedule :
  phase_of st = Finished → after H st schedule = st.
Proof.
  intros Hph. unfold after. induction schedule as [|s schedule IH]; cbn; [done|].
  unfold deliver at 2. by rewrite Hph.
Qed.

Lemma after_cons st s schedule :
  after H st (s :: schedule) = after H (deliver H st s) schedule.
Proof. done. Qed.

(** The runner, signal by signal, does what the reading plugin by plugin
    says. *)
Lemma drive_pipeline rest : ∀ pos node tr schedule,
  trace (after H (drive H pos rest node tr) schedule) =
  tr ++ pipeline H pos rest node schedule.
Proof.
  induction rest as [|f rest IH]; intros pos node tr schedule; cbn [drive pipeline].
  - by rewrite after_finished.
  - destruct (call (H f)) as [body|].
    + destruct (body node) as [node'|e].
      * rewrite IH, <- app_assoc. done.
      * rewrite after_finished by done. done.
    + induction schedule as [|s schedule IHs]; [done|].
      rewrite after_cons. unfold deliver. cbn [phase_of node_of trace first_signal].
      destruct (decide (s.1 = pos)) as [_|_]; [|apply IHs].
      destruct s.2 as [e|[e|] r].
      * rewrite after_finished by done. cbn. by rewrite <- app_assoc.
      * rewrite after_finished by done. cbn. by rewrite <- app_assoc.
      * rewrite IH, <- !app_assoc. done.
Qed.

Lemma first_signal_skip pos (junk more : list (nat * signal)) :
  Forall (λ s, s.1 ≠ pos) junk → first_signal pos (junk ++ more) = first_signal pos more.
Proof.
  induction 1 as [|s junk Hs _ IH]; cbn; [done|]. by rewrite decide_False.
Qed.

Lemma first_signal_app pos (s1 more : list (nat * signal)) sig s' :
  first_signal pos s1 = Some (sig, s') →
  first_signal pos (s1 ++ more) = Some (sig, s' ++ more).
Proof.
  induction s1 as [|s s1 IH]; cbn; [done|].
  destruct (decide (s.1 = pos)); [by intros [= <- <-] | done].
Qed.

Lemma first_signal_Forall (P : nat * signal → Prop) pos s1 sig s' :
  first_signal pos s1 = Some (sig, s') → Forall P s1 → Forall P s'.
Proof.
  induction s1 as [|s s1 IH]; cbn; [done|]. intros Hfirst [Hs Hs1]%Forall_cons.
  destruct (decide (s.1 = pos)); [by injection Hfirst as _ <- | by apply IH].
Qed.

(** Signals of plugins that come before those of a run are not heard. *)
Lemma pipeline_skip plugins : ∀ pos node (junk more : list (nat * signal)),
  Forall (λ s, s.1 < pos) junk →
  pipeline H pos plugins node (junk ++ more) = pipeline H pos plugins node more.
Proof.
  induction plugins as [|f plugins IH]; intros pos node junk more Hjunk; cbn; [done|].
  f_equal. destruct (call (H f)) as [body|].
  - destruct (body node) as [node'|e]; [|done]. f_equal. apply IH.
    eapply Forall_impl; [done|]. cbn. lia.
  - rewrite first_signal_skip; [done|].
    eapply Forall_impl; [done|]. cbn. lia.
Qed.

(** When the plugins of [before] complete under the signals [s1], a run
    over a registry that begins with them goes on, from the signals after
    [s1], with the plugins after them and the node they left. *)
Lemma pipeline_after_prefix before : ∀ pos node s1 n rest more,
  pipeline H pos before node s1 = completed before ++ [EvCallback None (Some n)] →
  Forall (λ s, s.1 < pos + length before) s1 →
  pipeline H pos (before ++ rest) node (s1 ++ more) =
  completed before ++ pipeline H (pos + length before) rest n more.
Proof.
  induction before as [|g before IH]; intros pos node s1 n rest more; cbn.
  - rewrite Nat.add_0_r. intros [= <-] Hs1. by apply pipeline_skip.
  - replace (pos + S (length before)) with (S pos + length before) by lia.
    destruct (call (H g)) as [body|].
    + destruct (body node) as [node'|e]; [|done].
      intros [= Hbefore] Hs1. do 2 f_equal. by apply IH.
    + destruct (first_signal pos s1) as [[sig s']|] eqn:Hfirst; [|done].
      rewrite (first_signal_app _ _ _ _ _ Hfirst).
      destruct sig as [e|[e|] r]; try done.
      intros [= Hbefore] Hs1. do 2 f_equal. apply IH; [done|].
      by eapply first_signal_Forall.
Qed.

(** What the first plugin after the completed ones does to the run. *)
Lemma run_after_prefix fns node schedule before f later s1 more n :
  fns = before ++ f :: later →
  pipeline H 0 before node s1 = completed before ++ [EvCallback None (Some n)] →
  Forall (λ s, s.1 < length before) s1 →
  schedule = s1 ++ more →
  trace (after H (ware_run H fns node) schedule) =
  completed before ++ pipeline H (length before) (f :: later) n more.
Proof.
  intros -> Hbefore Hs1 ->. unfold ware_run. rewrite drive_pipeline. cbn [app].
  by apply (pipeline_after_prefix before 0).
Qed.

(** C3. A call of [run] with a callback starts a run whose trace, after
    any signals, is the one read off the registry plugin by plugin, and
    of which the callback is invoked at most once, whatever the plugins
    signal and in whatever order. When the plugins before a plugin have
    completed and that plugin fails, by throwing on the node they left
    if it takes no continuation, or else by a throw or an error handed to
    its continuation as its first signal from then on, then the trace is:
    those plugins completed, the plugin begun and failed, and the
    callback with that error and no node. Whenever a failure is in the
    trace the run is over, the callback has been invoked once, with the
    error and no node, and the plugins begun are those up to the failed
    one, so none attached after it runs; and no later signal changes a
    run that is over. *)
Theorem run_short_circuits self node done schedule :
  is_function done = true →
  ∃ st0, run H self node done = Normal st0 ∧
  let st := after H st0 schedule in
  trace st = pipeline H 0 (fns self) node schedule ∧
  length (callbacks (trace st)) ≤ 1 ∧
  (∀ before f later s1 more n e,
     fns self = before ++ f :: later →
     pipeline H 0 before node s1 = completed before ++ [EvCallback None (Some n)] →
     Forall (λ s, s.1 < length before) s1 →
     schedule = s1 ++ more →
     match call (H f) with
     | SyncFn body => body n = Abrupt e
     | AsyncFn =>
       ∃ ignored sig tail,
         more = ignored ++ (length before, sig) :: tail ∧
         Forall (λ s, s.1 ≠ length before) ignored ∧
         (sig = SigThrow e ∨ ∃ r, sig = SigNext (Some e) r)
     end →
     trace st = completed before ++ [EvBegin f; EvFail f e; EvCallback (Some e) None]) ∧
  (∀ f e, EvFail f e ∈ trace st →
     phase_of st = Finished ∧
     callbacks (trace st) = [EvCallback (Some e) None] ∧
     ∃ before later, fns self = before ++ f :: later ∧
                     begun (trace st) = before ++ [f]) ∧
  (∀ pos f rest e sig,
     phase_of st = Waiting pos f rest →
     sig = SigThrow e ∨ (∃ r, sig = SigNext (Some e) r) →
     EvFail f e ∈ trace (deliver H st (pos, sig))) ∧
  (phase_of st = Finished → ∀ more, after H st more = st).
Proof.
  intros Hdone. exists (ware_run H (fns self) node).
  split; [unfold run; by rewrite Hdone|].
  intros st. pose proof (after_shape (fns self) node schedule) as Hst.
  fold st in Hst.
  split; [|split; [|split; [|split; [|split]]]].
  - subst st. unfold ware_run. by rewrite drive_pipeline.
  - clearbody st. destruct Hst; cbn; rewrite callbacks_app, callbacks_completed; cbn; lia.
  - intros before f later s1 more n e Hfns Hbefore Hs1 Hschedule Hfails. subst st.
    rewrite (run_after_prefix _ _ _ _ _ _ _ _ _ Hfns Hbefore Hs1 Hschedule).
    f_equal. cbn [pipeline]. f_equal. destruct (call (H f)) as [body|].
    + by rewrite Hfails.
    + destruct Hfails as (ignored & sig & tail & -> & Hignored & Hsig).
      rewrite first_signal_skip by done. cbn. rewrite decide_True by done.
      by destruct Hsig as [->|[r ->]].
  - clearbody st. intros g e Hin.
    destruct Hst as [before f rest n Hfns Hcall|before f rest e' n Hfns|n]; cbn in *.
    + apply elem_of_app in Hin as [Hin|Hin]; [by apply completed_no_failure in Hin|].
      apply list_elem_of_singleton in Hin. done.
    + apply elem_of_app in Hin as [Hin|Hin]; [by apply completed_no_failure in Hin|].
      rewrite !elem_of_cons in Hin.
      destruct Hin as [?|[[= -> ->]|[?|Hnil]]]; try done; [|by apply elem_of_nil in Hnil].
      split; [done|]. split.
      * by rewrite callbacks_app, callbacks_completed.
      * exists before, rest. split; [done|].
        by rewrite begun_app, begun_completed.
    + apply elem_of_app in Hin as [Hin|Hin]; [by apply completed_no_failure in Hin|].
      apply list_elem_of_singleton in Hin. done.
  - clearbody st. intros pos f rest e sig Hph Hsig. unfold deliver. rewrite Hph. cbn.
    rewrite decide_True by done.
    assert (EvFail f e ∈ trace st ++ [EvFail f e; EvCallback (Some e) None]) as Hin
      by (apply elem_of_app; right; left).
    by destruct Hsig as [->|[r ->]].
  - intros Hph more. by apply after_finished.
Qed.

(** C4. A call of [run] with a callback starts a run whose trace, after
    any signals, is the one read off the registry plugin by plugin. When
    the plugins before a plugin have completed, that plugin is begun with
    the node they left, and no plugin after it is begun before it
    completes: if it takes no continuation and returns, the run goes on
    with the plugins after it and the node as it left it; if it takes a
    continuation, the trace ends with its beginning for as long as it
    sends no signal, and once it invokes its continuation without error
    the run goes on with the plugins after it, on the node or its
    replacement. So the trace is at every moment the plugins completed so
    far, in the order of the registry, followed by the beginning of the
    plugin waited for, or by a failure and the callback with the error,
    or, with every plugin completed, by the callback with no error and
    the node. While the runner waits for a plugin, the signals of the
    others change nothing. *)
Theorem run_sequential self node done schedule :
  is_function done = true →
  ∃ st0, run H self node done = Normal st0 ∧
  let st := after H st0 schedule in
  trace st = pipeline H 0 (fns self) node schedule ∧
  (∀ before f later s1 more n,
     fns self = before ++ f :: later →
     pipeline H 0 before node s1 = completed before ++ [EvCallback None (Some n)] →
     Forall (λ s, s.1 < length before) s1 →
     schedule = s1 ++ more →
     match call (H f) with
     | SyncFn body =>
       ∀ n', body n = Normal n' →
             trace st =
             completed (before ++ [f]) ++ pipeline H (S (length before)) later n' more
     | AsyncFn =>
       (Forall (λ s, s.1 ≠ length before) more →
        trace st = completed before ++ [EvBegin f]) ∧
       (∀ ignored r tail,
          more = ignored ++ (length before, SigNext None r) :: tail →
          Forall (λ s, s.1 ≠ length before) ignored →
          trace st =
          completed (before ++ [f]) ++
          pipeline H (S (length before)) later (default n r) tail)
     end) ∧
  (∃ before,
     match phase_of st with
     | Waiting pos f rest =>
       fns self = before ++ f :: rest ∧ pos = length before ∧
       call (H f) = AsyncFn ∧
       trace st = completed before ++ [EvBegin f]
     | Finished =>
       (before = fns self ∧
        trace st = completed (fns self) ++ [EvCallback None (Some (node_of st))]) ∨
       (∃ f rest e,
          fns self = before ++ f :: rest ∧
          trace st =
          completed before ++ [EvBegin f; EvFail f e; EvCallback (Some e) None])
     end) ∧
  (∀ pos f rest tok sig,
     phase_of st = Waiting pos f rest → tok ≠ pos → deliver H st (tok, sig) = st).
Proof.
  intros Hdone. exists (ware_run H (fns self) node).
  split; [unfold run; by rewrite Hdone|].
  intros st. pose proof (after_shape (fns self) node schedule) as Hst.
  fold st in Hst.
  split; [|split; [|split]].
  - subst st. unfold ware_run. by rewrite drive_pipeline.
  - intros before f later s1 more n Hfns Hbefore Hs1 Hschedule. subst st.
    rewrite (run_after_prefix _ _ _ _ _ _ _ _ _ Hfns Hbefore Hs1 Hschedule).
    rewrite completed_snoc. cbn [pipeline].
    destruct (call (H f)) as [body|].
    + intros n' Hn'. by rewrite Hn', <- app_assoc.
    + split.
      * intros Hmore. f_equal.
        rewrite <- (app_nil_r more), first_signal_skip by done. done.
      * intros ignored r tail -> Hignored.
        rewrite first_signal_skip by done. cbn. rewrite decide_True by done.
        by rewrite <- app_assoc.
  - clearbody st.
    destruct Hst as [before f rest n Hfns Hcall|before f rest e n Hfns|n]; cbn.
    + by exists before.
    + exists before. right. by exists f, rest, e.
    + exists (fns self). by left.
  - clearbody st. intros pos f rest tok sig Hph Hne. unfold deliver. rewrite Hph. cbn.
    by rewrite decide_False.
Qed.

End Runner.

(** ** Attachment *)

Lemma indexOf_range l f : (-1 ≤ indexOf l f)%Z.
Proof.
  induction l as [|g l IH]; cbn; [lia|].
  destruct (decide (g = f)); [lia|].
  destruct (Z.eqb_spec (indexOf l f) (-1)); lia.
Qed.

Lemma indexOf_absent l f : (indexOf l f =? -1)%Z = true ↔ f ∉ l.
Proof.
  rewrite Z.eqb_eq. induction l as [|g l IH]; cbn.
  - split; [intros _; apply not_elem_of_nil | done].
  - rewrite not_elem_of_cons. pose proof (indexOf_range l f).
    destruct (decide (g = f)) as [->|Hne].
    + split; [lia | tauto].
    + destruct (Z.eqb_spec (indexOf l f) (-1)) as [Heq|Hneq].
      * split; [|done]. intros _. split; [done|]. by apply IH.
      * split; [lia|]. intros [_ Hl]. apply IH in Hl. lia.
Qed.

Lemma indexOf_present l f : f ∈ l → (indexOf l f =? -1)%Z = false.
Proof.
  intros Hin. destruct (indexOf l f =? -1)%Z eqn:E; [|done].
  by apply indexOf_absent in E.
Qed.

Lemma count_app p (l1 l2 : list event) : count p (l1 ++ l2) = count p l1 + count p l2.
Proof. induction l1 as [|ev l1 IH]; cbn; [done|]. rewrite IH. lia. Qed.

Section Attachment.

Variable H : heap.

Lemma run_hook_steps self_use :
  (∀ v s, rtc attach_step s (self_use v s).2) →
  ∀ body s, rtc attach_step s (run_hook self_use body s).2.
Proof.
  intros Huse body. induction body as [|[v|e|change|change] body IH]; intros s; cbn;
    try done.
  - specialize (Huse v s). destruct (self_use v s) as [[| |] s']; cbn in *; try done.
    etrans; [done | apply IH].
  - eapply rtc_l; [apply step_parser | apply IH].
  - eapply rtc_l; [apply step_TextOM | apply IH].
Qed.

(** A call of [use] is a sequence of attachments. *)
Lemma use_steps fuel : ∀ v s, rtc attach_step s (use H fuel v s).2.
Proof.
  induction fuel as [|fuel IH]; intros v s; destruct v as [| | | | | |f]; cbn; try done.
  - destruct (indexOf (fns s) f =? -1)%Z eqn:E; [|done].
    apply indexOf_absent in E.
    destruct (attach (H f)); cbn; by apply rtc_once, step_push.
  - destruct (indexOf (fns s) f =? -1)%Z eqn:E; [|done].
    apply indexOf_absent in E.
    destruct (attach (H f)); cbn; try by apply rtc_once, step_push.
    eapply rtc_l; [by apply step_hook|]. by apply run_hook_steps.
Qed.

Lemma steps_prefix s s' : rtc attach_step s s' → fns s `prefix_of` fns s'.
Proof.
  induction 1 as [|s s1 s' Hstep _ IH]; [done|].
  etrans; [|done]. destruct Hstep; cbn; try done; by apply prefix_app_r.
Qed.

Lemma steps_NoDup s s' : rtc attach_step s s' → NoDup (fns s) → NoDup (fns s').
Proof.
  induction 1 as [|s s1 s' Hstep _ IH]; [done|]. intros Hnd. apply IH.
  destruct Hstep; cbn; try done; apply NoDup_app; (split; [done|]);
    (split; [|apply NoDup_singleton]); intros x Hx ->%list_elem_of_singleton; done.
Qed.


Lemma use_present fuel f s : f ∈ fns s → use H fuel (VFun f) s = (Returned, s).
Proof. intros Hin. destruct fuel; cbn; by rewrite indexOf_present. Qed.

(** What [use] makes of a plugin the registry does not hold. *)
Lemma use_absent fuel f s :
  f ∉ fns s →
  use H fuel (VFun f) s =
  match attach (H f) with
  | AttachFalsy => (Returned, ware_use s f)
  | AttachNotCallable =>
    (Threw (TypeError "plugin.attach is not a function"), ware_use s f)
  | AttachHook body =>
    match fuel with
    | 0 => (Exhausted, ware_use s f)
    | S fuel' => run_hook (use H fuel') body (log_attach (ware_use s f) f)
    end
  end.
Proof.
  intros Hout. apply indexOf_absent in Hout. destruct fuel; cbn; by rewrite Hout.
Qed.

(** After [use], the registry is what it was, then the plugin if it was
    not there, then what the hooks added. *)
Lemma use_registry fuel f s :
  ∃ added, fns (use H fuel (VFun f) s).2 =
           if decide (f ∈ fns s) then fns s else fns s ++ f :: added.
Proof.
  destruct (decide (f ∈ fns s)) as [Hin|Hout].
  - exists []. by rewrite use_present.
  - rewrite use_absent by done.
    assert (∀ s', rtc attach_step (ware_use s f) s' → ∃ added, fns s' = fns s ++ f :: added)
      as Hgrow.
    { intros s' [added Hadd]%steps_prefix. exists added. rewrite Hadd. cbn.
      by rewrite <- app_assoc. }
    destruct (attach (H f)) as [| |body]; try (apply Hgrow; done).
    destruct fuel as [|fuel]; [by apply Hgrow|].
    destruct (steps_prefix (log_attach (ware_use s f) f)
                (run_hook (use H fuel) body (log_attach (ware_use s f) f)).2)
      as [added Hadd]; [apply run_hook_steps, use_steps|].
    exists added. rewrite Hadd. cbn. by rewrite <- app_assoc.
Qed.

Lemma use_holds fuel f s : f ∈ fns (use H fuel (VFun f) s).2.
Proof.
  destruct (use_registry fuel f s) as [added ->].
  destruct (decide (f ∈ fns s)); [done|]. apply elem_of_app. right. left.
Qed.

(** *** Enough fuel *)






(** *** What the hook does *)




End Attachment.

(** ** The instance: [use], [parse], [run] *)





Section Instance.

Variable H : heap.



(** C6. With an argument that is not a function, [use] throws a
    [TypeError] and leaves the instance, registry included, as it was;
    with a callback that is not a function, [parse] throws a
    [TypeError] with the parser not invoked and no tree built, and [run]
    throws one with no run begun. The error is the outcome of the call
    itself. *)
Theorem guards_throw_synchronously self v :
  is_function v = false →
  (∀ fuel, use H fuel v self = (Threw (TypeError (use_message v)), self)) ∧
  (∀ value, parse H self value v = ([], Abrupt (TypeError (parse_message v)))) ∧
  (∀ node, run H self node v = Abrupt (TypeError (run_message v))).
Proof.
  intros Hv. split; [|split].
  - intros fuel. destruct v; try done; by destruct fuel.
  - intros value. unfold parse. by rewrite Hv.
  - intros node. unfold run. by rewrite Hv.
Qed.

(** C7. When the parser throws on the value, [parse], called with a
    callback, ends with that same error thrown: the parser was invoked,
    no tree was built, and no run exists whose callback could be given
    the error. *)
Theorem parse_parser_throws self value done e :
  is_function done = true → parser self value = Abrupt e →
  parse H self value done = ([EvParse value], Abrupt e).
Proof. intros Hdone Hparse. unfold parse. by rewrite Hdone, Hparse. Qed.

End Instance.

(** ** The properties at the sample inputs *)

Example cat_text :
  leaf_text <$> (match fromCST sample_om cat_cst with
                 | Normal n => Some n
                 | Abrupt _ => None
                 end) = Some "Cat."%string.
Proof. vm_compute. reflexivity. Qed.

Lemma fromCST_children_or_value_witness :
  well_formed cat_cst = true ∧ registered sample_om cat_cst = true ∧
  ∃ n, fromCST sample_om cat_cst = Normal n ∧
       Forall2 (built sample_om) (Some <$> [parent "SentenceNode"
                  [leaf "WordNode" "Cat"; leaf "PunctuationNode" "."]]) (nchildren n) ∧
       ntext n = None.
Proof.
  split; [reflexivity|]. split; [reflexivity|].
  apply (fromCST_children_or_value sample_om cat_cst); reflexivity.
Defined.

(** C2, as stated, at a node of a type the object model does not know:
    the error thrown is not an [UnknownNodeTypeError]; it has the name of
    the errors of the guards of [use], [parse] and [run]. *)
Lemma fromCST_unknown_type_generic_error :
  sample_om (type (leaf "EmojiNode" ":)")) = None ∧
  ¬ (∃ e, fromCST sample_om (leaf "EmojiNode" ":)") = Abrupt e ∧
          ename e = "UnknownNodeTypeError"%string) ∧
  ∃ e, fromCST sample_om (leaf "EmojiNode" ":)") = Abrupt e ∧
       ename e = ename (TypeError (use_message VNull)).
Proof.
  split; [reflexivity|]. split.
  - intros (e & [= <-] & Hname). discriminate Hname.
  - eexists. split; reflexivity.
Qed.

Lemma fromCST_unknown_type_witness :
  sample_om (type (leaf "EmojiNode" ":)")) = None ∧
  fromCST sample_om (leaf "EmojiNode" ":)") = Abrupt not_a_constructor.
Proof.
  split; [reflexivity|].
  apply (fromCST_unknown_type sample_om (leaf "EmojiNode" ":)")). reflexivity.
Defined.

Example data_copied :
  ndata <$> (match fromCST data_om data_cst with
             | Normal n => Some n
             | Abrupt _ => None
             end) =
  Some ({[ "lang" := VStr "en"; "ref" := VRef 7; "kept" := VNum 1 ]} : gmap string jsval).
Proof. vm_compute. reflexivity. Qed.

Lemma fromCST_data_witness :
  ∃ n, data_om (type data_cst) = Some data_ctor ∧
       fromCST data_om data_cst = Normal n ∧
       ∀ a, ndata n !! a =
            match own sample_data !! a with
            | Some v => Some v
            | None => init_data data_ctor !! a
            end.
Proof.
  eexists. split; [reflexivity|]. split; [reflexivity|].
  apply (fromCST_data data_om data_cst data_ctor); reflexivity.
Defined.

Example falsy_entry_ends_children :
  fromCST sample_om
    (CST "SentenceNode" (Some [Some (leaf "WordNode" "Cat"); None; Some (leaf "EmojiNode" ":)")])
       None None) =
  fromCST sample_om (parent "SentenceNode" [leaf "WordNode" "Cat"]).
Proof. reflexivity. Qed.

Example children_and_value :
  fromCST sample_om (CST "WordNode" (Some []) (Some (VStr "Cat")) None) =
  Normal {| ntype := "WordNode"; nchildren := []; ntext := None; ndata := ∅ |}.
Proof. reflexivity. Qed.

(** Plugins 1, 2, 3 in that order, 2 taking a continuation: the run stops
    at 2 until its continuation is invoked, then goes through 3 to the
    callback. *)
Example three_plugins_waiting :
  ware_run sample_heap [1; 2; 3] empty_node =
  RunState (Waiting 1 2 [3]) empty_node [EvBegin 1; EvComplete 1; EvBegin 2].
Proof. reflexivity. Qed.

Example three_plugins_resumed :
  trace (after sample_heap (ware_run sample_heap [1; 2; 3] empty_node)
           [(1, SigNext None None)]) =
  [EvBegin 1; EvComplete 1; EvBegin 2; EvComplete 2; EvBegin 3; EvComplete 3;
   EvCallback None (Some (set_data empty_node "seen" (VBool true)))].
Proof. reflexivity. Qed.

(** Plugin 2 hands an error to its continuation, then invokes it again. *)
Example second_plugin_fails :
  trace (after sample_heap (ware_run sample_heap [1; 2; 3] empty_node)
           [(1, SigNext (Some boom) None); (1, SigNext None None)]) =
  [EvBegin 1; EvComplete 1; EvBegin 2; EvFail 2 boom; EvCallback (Some boom) None].
Proof. reflexivity. Qed.

Example throwing_plugin :
  trace (ware_run sample_heap [1; 4; 3] empty_node) =
  [EvBegin 1; EvComplete 1; EvBegin 4; EvFail 4 boom; EvCallback (Some boom) None].
Proof. reflexivity. Qed.

Lemma run_short_circuits_witness :
  is_function (VFun 9) = true ∧
  ∃ st0, run sample_heap (ware_use (ware_use (ware_use sample_instance 1) 4) 3)
           empty_node (VFun 9) = Normal st0 ∧
         trace (after sample_heap st0 []) =
         completed [1] ++ [EvBegin 4; EvFail 4 boom; EvCallback (Some boom) None].
Proof.
  split; [reflexivity|].
  destruct (run_short_circuits sample_heap
              (ware_use (ware_use (ware_use sample_instance 1) 4) 3) empty_node (VFun 9)
              [] eq_refl)
    as (st0 & Hrun & Hrest).
  cbv zeta in Hrest. destruct Hrest as (_ & _ & Hfail & _).
  exists st0. split; [exact Hrun|].
  apply (Hfail [1] 4 [3] [] [] empty_node boom);
    [reflexivity | reflexivity | constructor | reflexivity | reflexivity].
Defined.

Lemma run_sequential_witness :
  is_function (VFun 9) = true ∧
  ∃ st0, run sample_heap (ware_use (ware_use (ware_use sample_instance 1) 2) 3)
           empty_node (VFun 9) = Normal st0 ∧
         trace (after sample_heap st0 [(0, SigNext None None)]) =
         completed [1] ++ [EvBegin 2] ∧
         trace (after sample_heap st0 [(0, SigNext None None); (1, SigNext None None)]) =
         completed ([1] ++ [2]) ++ pipeline sample_heap 2 [3] empty_node [].
Proof.
  split; [reflexivity|].
  destruct (run_sequential sample_heap
              (ware_use (ware_use (ware_use sample_instance 1) 2) 3) empty_node (VFun 9)
              [(0, SigNext None None)] eq_refl)
    as (st0 & Hrun & Hwaits).
  destruct (run_sequential sample_heap
              (ware_use (ware_use (ware_use sample_instance 1) 2) 3) empty_node (VFun 9)
              [(0, SigNext None None); (1, SigNext None None)] eq_refl)
    as (st0' & Hrun' & Hgoes).
  cbv zeta in Hwaits, Hgoes.
  destruct Hwaits as (_ & Hwaits & _). destruct Hgoes as (_ & Hgoes & _).
  assert (st0' = st0) as -> by congruence.
  exists st0. split; [exact Hrun|]. split.
  - pose proof (Hwaits [1] 2 [3] [] [(0, SigNext None None)] empty_node
                  eq_refl eq_refl (Forall_nil_2 _) eq_refl) as [Hstill _].
    apply Hstill. repeat constructor. cbn. lia.
  - pose proof (Hgoes [1] 2 [3] [] [(0, SigNext None None); (1, SigNext None None)]
                  empty_node eq_refl eq_refl (Forall_nil_2 _) eq_refl) as [_ Hon].
    apply (Hon [(0, SigNext None None)] None []); [reflexivity|].
    repeat constructor. cbn. lia.
Defined.

Example mutual_hooks :
  (use sample_heap 3 (VFun 1) sample_instance).1 = Returned ∧
  fns (use sample_heap 3 (VFun 1) sample_instance).2 = [1; 2] ∧
  hook_log (use sample_heap 3 (VFun 1) sample_instance).2 = [EvAttach 1; EvAttach 2].
Proof. repeat split. Qed.

(** The hook of plugin 8 teaches the object model a type and attaches
    plugin 3: after [use], the instance builds what it could not. *)
Example hook_changes_instance :
  (use init_heap 2 (VFun 8) emoji_instance).1 = Returned ∧
  fns (use init_heap 2 (VFun 8) emoji_instance).2 = [8; 3] ∧
  (parse init_heap emoji_instance (VStr ":)") (VFun 9)).2 = Abrupt not_a_constructor ∧
  match (parse init_heap (use init_heap 2 (VFun 8) emoji_instance).2
           (VStr ":)") (VFun 9)).2 with
  | Normal st => begun (trace st) = [8]
  | Abrupt _ => False
  end.
Proof. repeat split. Qed.


Lemma guards_throw_synchronously_witness :
  is_function (VStr "plugin") = false ∧
  (∀ fuel, use sample_heap fuel (VStr "plugin") sample_instance =
           (Threw (TypeError (use_message (VStr "plugin"))), sample_instance)) ∧
  (∀ value, parse sample_heap sample_instance value (VStr "plugin") =
            ([], Abrupt (TypeError (parse_message (VStr "plugin"))))) ∧
  (∀ node, run sample_heap sample_instance node (VStr "plugin") =
           Abrupt (TypeError (run_message (VStr "plugin")))).
Proof.
  split; [reflexivity|].
  apply (guards_throw_synchronously sample_heap sample_instance (VStr "plugin")).
  reflexivity.
Defined.

Example use_message_text :
  use_message VUndefined =
  "Illegal invocation: `undefined` is not a valid argument for `Retext#use(plugin)`"%string.
Proof. reflexivity. Qed.

Lemma parse_parser_throws_witness :
  is_function (VFun 9) = true ∧
  parser failing_instance (VStr "Cat.") = Abrupt boom ∧
  parse sample_heap failing_instance (VStr "Cat.") (VFun 9) =
  ([EvParse (VStr "Cat.")], Abrupt boom).
Proof.
  split; [reflexivity|]. split; [reflexivity|].
  apply (parse_parser_throws sample_heap failing_instance (VStr "Cat.") (VFun 9) boom);
    reflexivity.
Defined.

(** A text parsed and run through plugins that take no continuation. *)
Example parse_cat :
  (parse sample_heap sample_instance (VStr "Cat.") (VFun 9)).1 =
  [EvParse (VStr "Cat."); EvBuild cat_cst] ∧
  match (parse sample_heap (use sample_heap 3 (VFun 3) sample_instance).2
           (VStr "Cat.") (VFun 9)).2 with
  | Normal st => callbacks (trace st) = [EvCallback None (Some (node_of st))] ∧
                 begun (trace st) = [3]
  | Abrupt _ => False
  end.
Proof. vm_compute. repeat split. Qed.

(** * Further properties *)

(** ** The builder on any CST *)

Section BuilderAnyInput.

Variable om : object_model.

Lemma buildable_unfold c :
  buildable om c =
  match om (type c) with
  | None => false
  | Some _ =>
    match children c with
    | Some cs => forallb (buildable om) (visited cs)
    | None => true
    end
  end.
Proof.
  destruct c as [ty [cs|] v d]; cbn; destruct (om ty); try done.
  induction cs as [|[child|] cs IH]; cbn; try done. by rewrite IH.
Qed.

Lemma leaves_unfold n :
  leaves n =
  match ntext n with Some v => [v] | None => [] end ++ concat (leaves <$> nchildren n).
Proof.
  destruct n as [ty l t d]; cbn. f_equal.
  induction l as [|x l IH]; cbn; [done|]. by rewrite IH.
Qed.

Lemma cst_leaves_unfold c :
  cst_leaves c =
  match children c with
  | Some cs => concat (cst_leaves <$> visited cs)
  | None => [get_value c]
  end.
Proof.
  destruct c as [ty [cs|] v d]; cbn; [|done].
  induction cs as [|[child|] cs IH]; cbn; try done. by rewrite IH.
Qed.

Lemma forallb_Forall_true {A} (f : A → bool) l :
  forallb f l = true ↔ Forall (λ x, f x = true) l.
Proof.
  induction l as [|x l IH]; cbn; [done|].
  rewrite andb_true_iff, Forall_cons, IH. done.
Qed.

Lemma visited_Forall (P : cst → Prop) cs :
  Forall (λ oc, ∀ c, oc = Some c → P c) cs → Forall P (visited cs).
Proof.
  induction 1 as [|[child|] cs Hc _ IH]; cbn; [done| |done].
  constructor; [by apply Hc | done].
Qed.

(** The loop appends what it builds from the entries it visits. *)
Lemma while_children_visited build cs node node' :
  while_children build cs node = Normal node' →
  ∃ bs, nchildren node' = nchildren node ++ bs ∧
        Forall2 (λ child b, build child = Normal b) (visited cs) bs.
Proof.
  revert node. induction cs as [|[child|] cs IH]; intros node; cbn.
  - intros [= <-]. exists []. by rewrite app_nil_r.
  - destruct (build child) as [b|e] eqn:Hb; [|done]. intros Hw.
    destruct (IH _ Hw) as (bs & Hbs & Hall). exists (b :: bs). split.
    + rewrite Hbs. cbn. by rewrite <- app_assoc.
    + by constructor.
  - intros [= <-]. exists []. by rewrite app_nil_r.
Qed.

(** The loop fails with the error of the first visited entry that cannot
    be built. *)
Lemma while_children_outcome build cs node :
  match while_children build cs node with
  | Normal _ => Forall (λ child, ∃ b, build child = Normal b) (visited cs)
  | Abrupt e => Exists (λ child, build child = Abrupt e) (visited cs)
  end.
Proof.
  revert node. induction cs as [|[child|] cs IH]; intros node; cbn; try done.
  destruct (build child) as [b|e] eqn:Hb.
  - specialize (IH (append node b)).
    destruct (while_children build cs (append node b)).
    + constructor; [by exists b | done].
    + by apply Exists_cons_tl.
  - by apply Exists_cons_hd.
Qed.

(** X1. Whatever the CST node holds, when it carries [children] and
    [fromCST] returns a node, that node is of the variant the object
    model has for the [type], [fromString] was not invoked on it, and its
    children are what [fromCST] builds from the entries before the first
    falsy one, one for one and in their order. *)
Theorem fromCST_children_visited c cs n :
  children c = Some cs → fromCST om c = Normal n →
  (∃ k, om (type c) = Some k ∧ ntype n = variant k) ∧
  ntext n = None ∧
  Forall2 (λ child b, fromCST om child = Normal b) (visited cs) (nchildren n).
Proof.
  intros Hcs. rewrite fromCST_unfold, Hcs.
  destruct (om (type c)) as [k|]; [|done].
  destruct (while_children _ cs _) as [node|e] eqn:Hw; [|done].
  intros [= <-].
  destruct (copy_data_shape c node) as (-> & -> & ->).
  destruct (while_children_frame _ _ _ _ Hw) as (-> & -> & _).
  destruct (while_children_visited _ _ _ _ Hw) as (bs & -> & Hall).
  split; [by exists k|]. done.
Qed.

(** How [fromCST] ends is decided by [buildable]. *)
Lemma fromCST_buildable c :
  match fromCST om c with
  | Normal _ => buildable om c = true
  | Abrupt e => buildable om c = false ∧ e = not_a_constructor
  end.
Proof.
  induction c as [ty v d|ty cs v d IH] using cst_nested_ind;
    rewrite fromCST_unfold, buildable_unfold; cbn;
    destruct (om ty) as [k|]; try done.
  apply visited_Forall in IH.
  pose proof (while_children_outcome (fromCST om) cs (new_node k)) as Hloop.
  destruct (while_children (fromCST om) cs (new_node k)) as [node|e].
  - apply forallb_Forall_true.
    induction IH as [|child l Hc _ IHl]; [done|].
    apply Forall_cons in Hloop as [[b Hb] Hl]. rewrite Hb in Hc.
    constructor; [done | by apply IHl].
  - apply Exists_exists in Hloop as (child & Hin & He).
    rewrite Forall_forall in IH. specialize (IH child Hin). rewrite He in IH.
    destruct IH as [Hfalse ->]. split; [|done].
    apply not_true_is_false. intros Hall%forallb_Forall_true.
    rewrite Forall_forall in Hall. specialize (Hall child Hin).
    rewrite Hfalse in Hall. done.
Qed.

(** X2. [fromCST] returns a node exactly when the object model has a
    constructor for the type of every node it visits; when it has not,
    the error is that of [new] on [undefined], also when the node without
    a constructor lies deep in the tree. *)
Theorem fromCST_outcome c :
  (buildable om c = true ↔ ∃ n, fromCST om c = Normal n) ∧
  (buildable om c = false ↔ fromCST om c = Abrupt not_a_constructor).
Proof.
  pose proof (fromCST_buildable c) as Hout.
  destruct (fromCST om c) as [n|e].
  - rewrite Hout. split; split; try done. by exists n.
  - destruct Hout as [-> ->]. split; split; try done. by intros [n Hn].
Qed.

(** X3. The values that [fromString] is given in the tree [fromCST]
    returns are, left to right, the [value]s of the CST nodes without
    [children] that it visits: none is lost, repeated or moved, and a
    [value] beside [children] or behind a falsy entry is not among
    them. *)
Theorem fromCST_leaves c : ∀ n, fromCST om c = Normal n → leaves n = cst_leaves c.
Proof.
  induction c as [ty v d|ty cs v d IH] using cst_nested_ind; intros n;
    rewrite fromCST_unfold, leaves_unfold, cst_leaves_unfold; cbn;
    destruct (om ty) as [k|]; try done.
  - intros [= <-].
    match goal with
    | |- context [copy_data ?c0 ?n0] => destruct (copy_data_shape c0 n0) as (_ & -> & ->)
    end.
    done.
  - destruct (while_children _ cs _) as [node|e] eqn:Hw; [|done].
    intros [= <-].
    match goal with
    | |- context [copy_data ?c0 ?n0] => destruct (copy_data_shape c0 n0) as (_ & -> & ->)
    end.
    destruct (while_children_frame _ _ _ _ Hw) as (_ & -> & _).
    destruct (while_children_visited _ _ _ _ Hw) as (bs & -> & Hall).
    cbn. f_equal. apply visited_Forall in IH.
    induction Hall as [|child b l bs' Hb _ IHl]; [done|].
    apply Forall_cons in IH as [Hc Hl]. cbn. by rewrite (Hc b Hb), IHl.
Qed.

(** X4. The [data] of a CST node decides nothing but the [data] of the
    node built from it: with another [data], or none, [fromCST] fails the
    same way or returns a node of the same variant, with the same
    children and the same text. *)
Theorem fromCST_data_frame c d :
  match fromCST om c, fromCST om (with_data c d) with
  | Normal n, Normal n' =>
    ntype n' = ntype n ∧ nchildren n' = nchildren n ∧ ntext n' = ntext n
  | Abrupt e, Abrupt e' => e' = e
  | _, _ => False
  end.
Proof.
  rewrite !fromCST_unfold. cbn.
  destruct (om (type c)) as [k|]; [|done].
  assert (∀ node node',
            ntype node' = ntype node → nchildren node' = nchildren node →
            ntext node' = ntext node →
            ntype (copy_data (with_data c d) node') = ntype (copy_data c node) ∧
            nchildren (copy_data (with_data c d) node') = nchildren (copy_data c node) ∧
            ntext (copy_data (with_data c d) node') = ntext (copy_data c node)) as Hsame.
  { intros node node' Hty Hch Htx.
    destruct (copy_data_shape c node) as (-> & -> & ->).
    by destruct (copy_data_shape (with_data c d) node') as (-> & -> & ->). }
  destruct (children c) as [cs|].
  - destruct (while_children _ cs _) as [node|e]; [|done]. by apply Hsame.
  - by apply Hsame.
Qed.

(** X5. A CST node without [children] whose type the object model knows
    is always built, whatever its [value] is: the node has no children
    and its text is the [value] as it is, [undefined] when the CST node
    has no [value] either. *)
Theorem fromCST_leaf c k :
  children c = None → om (type c) = Some k →
  ∃ n, fromCST om c = Normal n ∧
       ntype n = variant k ∧ nchildren n = [] ∧
       ntext n = Some (default VUndefined (value c)).
Proof.
  intros Hcs Hk. rewrite fromCST_unfold, Hk, Hcs. eexists. split; [done|].
  destruct (copy_data_shape c (fromString (new_node k) (get_value c))) as (-> & -> & ->).
  done.
Qed.

End BuilderAnyInput.

(** ** Attachment, whatever the outcome *)

Section AnyOutcome.

Variable H : heap.

Lemma steps_hook_log s s' :
  rtc attach_step s s' → hook_log s `prefix_of` hook_log s'.
Proof.
  induction 1 as [|s s1 s' Hstep _ Hlog]; [done|].
  etrans; [|done]. destruct Hstep; cbn; try done. by apply prefix_app_r.
Qed.

(** X6. Whatever its argument and however it ends, [use] only appends to
    the registry: the plugins that were attached stay, in their places,
    also when hooks modify the instance. The hooks it invokes come after
    those invoked before, and only a hook changes the parser or the
    object model of the instance: when the call invokes no hook, they
    are as they were. *)
Theorem use_appends fuel v s :
  fns s `prefix_of` fns (use H fuel v s).2 ∧
  hook_log s `prefix_of` hook_log (use H fuel v s).2 ∧
  (hook_log (use H fuel v s).2 = hook_log s →
   parser (use H fuel v s).2 = parser s ∧ TextOM (use H fuel v s).2 = TextOM s).
Proof.
  pose proof (use_steps H fuel v s) as Hsteps.
  split; [by apply steps_prefix|]. split; [by apply steps_hook_log|].
  destruct v as [| | | | | |f]; try by destruct fuel.
  destruct (decide (f ∈ fns s)) as [Hin|Hout]; [by rewrite use_present|].
  rewrite use_absent by done.
  destruct (attach (H f)) as [| |body]; [done..|].
  destruct fuel as [|fuel]; [done|]. intros Hlog. exfalso.
  destruct (steps_hook_log (log_attach (ware_use s f) f)
              (run_hook (use H fuel) body (log_attach (ware_use s f) f)).2)
    as [more Hmore]; [apply run_hook_steps, use_steps|].
  rewrite Hlog in Hmore. cbn in Hmore.
  apply (f_equal length) in Hmore. rewrite !length_app in Hmore. cbn in Hmore. lia.
Qed.

(** What every attachment keeps: no plugin twice in the registry, no
    hook invoked twice, and none invoked of a plugin that is not in the
    registry. *)
Lemma steps_tidy s s' :
  rtc attach_step s s' →
  NoDup (fns s) ∧
  (∀ g, count (is_attach g) (hook_log s) ≤ 1 ∧
        (g ∉ fns s → count (is_attach g) (hook_log s) = 0)) →
  NoDup (fns s') ∧
  (∀ g, count (is_attach g) (hook_log s') ≤ 1 ∧
        (g ∉ fns s' → count (is_attach g) (hook_log s') = 0)).
Proof.
  induction 1 as [|s s1 s' Hstep _ IH]; [done|]. intros [Hnd Hlog]. apply IH.
  split; [eapply steps_NoDup; [by apply rtc_once | done]|].
  intros g. destruct (Hlog g) as [Hle Hzero].
  destruct Hstep as [s f Hf|s f Hf|s change|s change]; cbn; try done.
  - split; [done|]. intros Hg. apply Hzero. intros ?. apply Hg, elem_of_app. by left.
  - rewrite count_app. cbn. case_bool_decide as Hfg.
    + subst f. rewrite (Hzero Hf). split; [lia|].
      intros Hg. exfalso. apply Hg, elem_of_app. right. left.
    + split; [lia|]. intros Hg. rewrite Hzero; [lia|].
      intros ?. apply Hg, elem_of_app. by left.
Qed.

(** X7. On an instance as [new Retext] makes it, after any number of
    calls of [use], with any arguments and whether they returned or
    threw, the registry holds no plugin twice, no [attach] hook has been
    invoked more than once, and none of a plugin that is not in the
    registry. *)
Theorem use_each_tidy ParseLatin TextOMConstructor p fuel plugins :
  let s := use_each H fuel plugins (new_Retext ParseLatin TextOMConstructor p) in
  NoDup (fns s) ∧
  ∀ g, count (is_attach g) (hook_log s) ≤ 1 ∧
       (g ∉ fns s → count (is_attach g) (hook_log s) = 0).
Proof.
  intros s. apply (steps_tidy (new_Retext ParseLatin TextOMConstructor p)).
  - subst s. unfold use_each. generalize (new_Retext ParseLatin TextOMConstructor p).
    induction plugins as [|v plugins IH]; intros s0; cbn; [done|].
    etrans; [apply use_steps | apply IH].
  - cbn. split; [constructor|]. intros g. split; [lia | done].
Qed.

(** X8. When [use] of a function throws, the function was not in the
    registry before the call and is in it after: the plugin is attached
    before its [attach] is looked at, and stays attached when that
    fails. *)
Theorem use_throw_keeps_plugin fuel f s e :
  (use H fuel (VFun f) s).1 = Threw e →
  (f ∉ fns s) ∧ (attach (H f) ≠ AttachFalsy) ∧ (f ∈ fns (use H fuel (VFun f) s).2).
Proof.
  intros Hthrow. split; [|split; [|apply use_holds]].
  - intros Hin. by rewrite use_present in Hthrow.
  - intros Hattach. destruct (decide (f ∈ fns s)) as [Hin|Hout].
    + by rewrite use_present in Hthrow.
    + rewrite use_absent, Hattach in Hthrow by done. cbn in Hthrow. done.
Qed.

(** ** Parsing, then building, then running *)

(** X9. When the parser yields a CST in which [fromCST] visits a node of
    a type without constructor, [parse], called with a callback, throws
    the error of [fromCST]: the parser was invoked and the tree begun,
    and no run exists whose callback could be given the error. *)
Theorem parse_build_fails self v done c :
  is_function done = true → parser self v = Normal c →
  buildable (TextOM self) c = false →
  parse H self v done = ([EvParse v; EvBuild c], Abrupt not_a_constructor).
Proof.
  intros Hdone Hparse Hbuild. unfold parse. rewrite Hdone, Hparse.
  pose proof (fromCST_buildable (TextOM self) c) as Hout.
  destruct (fromCST (TextOM self) c) as [n|e]; [congruence|].
  by destruct Hout as [_ ->].
Qed.

(** X10. When the parser yields a CST that [fromCST] can build, [parse],
    called with a callback, does not throw: it is [run] on the tree that
    [fromCST] builds from what the parser yields, with the same
    callback. *)
Theorem parse_runs_built_tree self v done c :
  is_function done = true → parser self v = Normal c →
  buildable (TextOM self) c = true →
  ∃ n st, fromCST (TextOM self) c = Normal n ∧
          run H self n done = Normal st ∧
          parse H self v done = ([EvParse v; EvBuild c], Normal st).
Proof.
  intros Hdone Hparse Hbuild. unfold parse. rewrite Hdone, Hparse.
  pose proof (fromCST_buildable (TextOM self) c) as Hout.
  destruct (fromCST (TextOM self) c) as [n|e] eqn:Hn; [|destruct Hout; congruence].
  exists n, (ware_run H (fns self) n). unfold run. by rewrite Hdone.
Qed.

End AnyOutcome.

(** ** The constructor *)

(** Reads of the store after the writes of the constructor: each
    [decide] of [set_prop] is settled by the addresses and the keys. *)
Ltac store_reads :=
  unfold set_prop; cbn;
  repeat split; repeat case_decide; destruct_and?; simplify_eq/=;
  try done; try lia;
  try (exfalso;
       match goal with
       | Hne : ¬ (_ ∧ _) |- _ => apply Hne; by split
       end).

(** X11. [new Retext(parser)], with a parser that is an object or a
    function, or with none, returns an instance whose parser and object
    model point at each other: the [TextOM] of [self.parser] is
    [self.TextOM] and the [parser] of [self.TextOM] is [self.parser]. The
    parser is the one given, when one is given. *)
Theorem Retext_constructor_links parser st :
  (truthy parser = true → is_Some (as_object parser)) →
  ∃ self st' pv p t,
    Retext_constructor parser st = (Normal self, st') ∧
    (truthy parser = true → pv = parser) ∧
    props st' (Obj self) "parser" = pv ∧
    props st' (Obj self) "TextOM" = VRef t ∧
    as_object pv = Some p ∧
    props st' p "TextOM" = VRef t ∧
    props st' (Obj t) "parser" = pv.
Proof.
  intros Hobj. unfold Retext_constructor, new_object.
  destruct (truthy parser) eqn:Htruthy.
  - destruct (Hobj eq_refl) as [p Hp]. rewrite Hp.
    eexists _, _, parser, p, _. split; [done|]. split; [done|].
    store_reads.
  - cbn.
    eexists (next st), _, (VRef (S (next st))), (Obj (S (next st))), (S (S (next st))).
    split; [done|]. split; [done|].
    store_reads.
Qed.

(** X12. [new Retext(parser)] leaves the properties of the objects that
    were there before as they were, but for the [TextOM] of the parser
    it is given: what it writes, it writes to the objects it makes. *)
Theorem Retext_constructor_frame parser st o key :
  (∀ addr, o = Obj addr → addr < next st) →
  as_object parser ≠ Some o ∨ key ≠ "TextOM"%string →
  props (Retext_constructor parser st).2 o key = props st o key ∧
  next st < next (Retext_constructor parser st).2.
Proof.
  intros Hold Hother. unfold Retext_constructor, new_object.
  destruct (truthy parser) eqn:Htruthy; cbn.
  - destruct (as_object parser) as [p|] eqn:Hp; cbn.
    + split; [|lia]. destruct o as [addr|f].
      * specialize (Hold addr eq_refl). destruct Hother; store_reads.
      * destruct Hother; store_reads.
    + split; [|lia]. destruct o as [addr|f]; [specialize (Hold addr eq_refl)|]; store_reads.
  - split; [|lia]. destruct o as [addr|f]; [specialize (Hold addr eq_refl)|]; store_reads.
Qed.

(** X13. When two instances are made with the same parser, the parser
    points at the object model of the second only. Both instances have
    that parser and each has an object model of its own that points at
    the parser, so that for the first instance the [TextOM] of
    [self.parser] is no longer [self.TextOM]. *)
Theorem Retext_constructor_shared_parser parser p st r1 st1 r2 st2 :
  as_object parser = Some p → (∀ addr, p = Obj addr → addr < next st) →
  Retext_constructor parser st = (Normal r1, st1) →
  Retext_constructor parser st1 = (Normal r2, st2) →
  ∃ t1 t2,
    t1 ≠ t2 ∧
    props st2 (Obj r1) "parser" = parser ∧ props st2 (Obj r1) "TextOM" = VRef t1 ∧
    props st2 (Obj r2) "parser" = parser ∧ props st2 (Obj r2) "TextOM" = VRef t2 ∧
    props st2 (Obj t1) "parser" = parser ∧ props st2 (Obj t2) "parser" = parser ∧
    props st2 p "TextOM" = VRef t2.
Proof.
  intros Hp Hold. unfold Retext_constructor, new_object.
  assert (truthy parser = true) as -> by (by destruct parser).
  rewrite Hp. cbn. intros [= <- <-] [= <- <-].
  exists (S (next st)), (S (S (S (S (next st))))).
  destruct p as [addr|f]; [specialize (Hold addr eq_refl)|]; store_reads.
Qed.

(** X14. Two instances made without a parser share nothing: each has a
    parser and an object model of its own, and the making of the second
    leaves the parser and the object model of the first pointing at each
    other. *)
Theorem Retext_constructor_defaults v1 v2 st r1 st1 r2 st2 :
  truthy v1 = false → truthy v2 = false →
  Retext_constructor v1 st = (Normal r1, st1) →
  Retext_constructor v2 st1 = (Normal r2, st2) →
  ∃ p1 t1 p2 t2,
    p1 ≠ p2 ∧ t1 ≠ t2 ∧
    props st2 (Obj r1) "parser" = VRef p1 ∧ props st2 (Obj r1) "TextOM" = VRef t1 ∧
    props st2 (Obj p1) "TextOM" = VRef t1 ∧ props st2 (Obj t1) "parser" = VRef p1 ∧
    props st2 (Obj r2) "parser" = VRef p2 ∧ props st2 (Obj r2) "TextOM" = VRef t2 ∧
    props st2 (Obj p2) "TextOM" = VRef t2 ∧ props st2 (Obj t2) "parser" = VRef p2.
Proof.
  intros Hv1 Hv2. unfold Retext_constructor, new_object. rewrite Hv1, Hv2. cbn.
  intros [= <- <-] [= <- <-].
  exists (S (next st)), (S (S (next st))),
         (S (S (S (S (S (next st)))))), (S (S (S (S (S (S (next st))))))).
  store_reads.
Qed.

(** ** The further properties at the sample inputs *)

Lemma fromCST_children_visited_witness :
  ∃ n, children holey_cst =
         Some [Some (leaf "WordNode" "Cat"); None; Some (leaf "EmojiNode" ":)")] ∧
       fromCST sample_om holey_cst = Normal n ∧
       ntext n = None ∧
       Forall2 (λ child b, fromCST sample_om child = Normal b)
         [leaf "WordNode" "Cat"] (nchildren n).
Proof.
  eexists. split; [reflexivity|]. split; [reflexivity|].
  apply (fromCST_children_visited sample_om holey_cst
           [Some (leaf "WordNode" "Cat"); None; Some (leaf "EmojiNode" ":)")]);
    reflexivity.
Defined.

Example deep_unknown_type :
  fromCST sample_om (parent "RootNode" [parent "SentenceNode" [leaf "EmojiNode" ":)"]]) =
  Abrupt not_a_constructor.
Proof. reflexivity. Qed.

Example cat_leaves : cst_leaves cat_cst = [VStr "Cat"; VStr "."].
Proof. reflexivity. Qed.

Lemma fromCST_leaves_witness :
  ∃ n, fromCST sample_om cat_cst = Normal n ∧ leaves n = cst_leaves cat_cst.
Proof.
  eexists. split; [reflexivity|].
  apply (fromCST_leaves sample_om cat_cst). reflexivity.
Defined.

Lemma fromCST_leaf_witness :
  children bare_cst = None ∧
  sample_om (type bare_cst) = Some (Ctor "WordNode" ∅) ∧
  ∃ n, fromCST sample_om bare_cst = Normal n ∧
       ntype n = "WordNode"%string ∧ nchildren n = [] ∧ ntext n = Some VUndefined.
Proof.
  split; [reflexivity|]. split; [reflexivity|].
  apply (fromCST_leaf sample_om bare_cst (Ctor "WordNode" ∅)); reflexivity.
Defined.

(** The hook of plugin 5 attaches plugin 3 and throws: 5 and 3 stay
    attached, and 7, which the hook would have attached next, is not. *)
Example hook_throws :
  (use faulty_heap 2 (VFun 5) sample_instance).1 = Threw boom ∧
  fns (use faulty_heap 2 (VFun 5) sample_instance).2 = [5; 3] ∧
  hook_log (use faulty_heap 2 (VFun 5) sample_instance).2 = [EvAttach 5].
Proof. repeat split. Qed.

Lemma use_throw_keeps_plugin_witness :
  (use faulty_heap 2 (VFun 6) sample_instance).1 =
    Threw (TypeError "plugin.attach is not a function") ∧
  (6 ∉ fns sample_instance) ∧
  (attach (faulty_heap 6) ≠ AttachFalsy) ∧
  (6 ∈ fns (use faulty_heap 2 (VFun 6) sample_instance).2).
Proof.
  split; [reflexivity|].
  apply (use_throw_keeps_plugin faulty_heap 2 6 sample_instance
           (TypeError "plugin.attach is not a function")).
  reflexivity.
Defined.

Lemma parse_build_fails_witness :
  is_function (VFun 9) = true ∧
  parser emoji_instance (VStr ":)") = Normal (parent "RootNode" [leaf "EmojiNode" ":)"]) ∧
  buildable (TextOM emoji_instance) (parent "RootNode" [leaf "EmojiNode" ":)"]) = false ∧
  parse sample_heap emoji_instance (VStr ":)") (VFun 9) =
  ([EvParse (VStr ":)"); EvBuild (parent "RootNode" [leaf "EmojiNode" ":)"])],
   Abrupt not_a_constructor).
Proof.
  split; [reflexivity|]. split; [reflexivity|]. split; [reflexivity|].
  apply (parse_build_fails sample_heap emoji_instance (VStr ":)") (VFun 9)); reflexivity.
Defined.

Lemma parse_runs_built_tree_witness :
  is_function (VFun 9) = true ∧
  parser sample_instance (VStr "Cat.") = Normal cat_cst ∧
  buildable (TextOM sample_instance) cat_cst = true ∧
  ∃ n st, fromCST (TextOM sample_instance) cat_cst = Normal n ∧
          run sample_heap sample_instance n (VFun 9) = Normal st ∧
          parse sample_heap sample_instance (VStr "Cat.") (VFun 9) =
          ([EvParse (VStr "Cat."); EvBuild cat_cst], Normal st).
Proof.
  split; [reflexivity|]. split; [reflexivity|]. split; [reflexivity|].
  apply (parse_runs_built_tree sample_heap sample_instance (VStr "Cat.") (VFun 9) cat_cst);
    reflexivity.
Defined.

Example constructor_on_primitive :
  (Retext_constructor (VNum 5) sample_store).1 = Abrupt not_an_object.
Proof. reflexivity. Qed.

Lemma Retext_constructor_links_witness :
  (truthy (VRef 0) = true → is_Some (as_object (VRef 0))) ∧
  ∃ self st' pv p t,
    Retext_constructor (VRef 0) sample_store = (Normal self, st') ∧
    (truthy (VRef 0) = true → pv = VRef 0) ∧
    props st' (Obj self) "parser" = pv ∧
    props st' (Obj self) "TextOM" = VRef t ∧
    as_object pv = Some p ∧
    props st' p "TextOM" = VRef t ∧
    props st' (Obj t) "parser" = pv.
Proof.
  assert (truthy (VRef 0) = true → is_Some (as_object (VRef 0))) as Hobj
    by (intros _; exists (Obj 0); reflexivity).
  split; [exact Hobj|].
  exact (Retext_constructor_links (VRef 0) sample_store Hobj).
Defined.

Lemma Retext_constructor_frame_witness :
  (∀ addr, Obj 0 = Obj addr → addr < next sample_store) ∧
  (as_object (VRef 0) ≠ Some (Obj 0) ∨ "parse"%string ≠ "TextOM"%string) ∧
  props (Retext_constructor (VRef 0) sample_store).2 (Obj 0) "parse" =
  props sample_store (Obj 0) "parse" ∧
  next sample_store < next (Retext_constructor (VRef 0) sample_store).2.
Proof.
  assert (∀ addr, Obj 0 = Obj addr → addr < next sample_store) as Hold
    by (intros addr [= <-]; cbn; lia).
  assert (as_object (VRef 0) ≠ Some (Obj 0) ∨ "parse"%string ≠ "TextOM"%string) as Hkey
    by (right; discriminate).
  split; [exact Hold|]. split; [exact Hkey|].
  exact (Retext_constructor_frame (VRef 0) sample_store (Obj 0) "parse" Hold Hkey).
Defined.

Lemma Retext_constructor_shared_parser_witness :
  ∃ r1 st1 r2 st2,
    as_object (VRef 0) = Some (Obj 0) ∧
    (∀ addr, Obj 0 = Obj addr → addr < next sample_store) ∧
    Retext_constructor (VRef 0) sample_store = (Normal r1, st1) ∧
    Retext_constructor (VRef 0) st1 = (Normal r2, st2) ∧
    ∃ t1 t2, t1 ≠ t2 ∧
             props st2 (Obj r1) "TextOM" = VRef t1 ∧
             props st2 (Obj 0) "TextOM" = VRef t2.
Proof.
  assert (∀ addr, Obj 0 = Obj addr → addr < next sample_store) as Hold
    by (intros addr [= <-]; cbn; lia).
  eexists _, _, _, _. split; [reflexivity|]. split; [exact Hold|].
  split; [reflexivity|]. split; [reflexivity|].
  destruct (Retext_constructor_shared_parser (VRef 0) (Obj 0) sample_store
              _ _ _ _ eq_refl Hold eq_refl eq_refl)
    as (t1 & t2 & Hne & _ & Ht1 & _ & _ & _ & _ & Ht2).
  exists t1, t2. split; [exact Hne|]. split; [exact Ht1 | exact Ht2].
Defined.

Lemma Retext_constructor_defaults_witness :
  ∃ r1 st1 r2 st2,
    truthy VUndefined = false ∧ truthy VNull = false ∧
    Retext_constructor VUndefined sample_store = (Normal r1, st1) ∧
    Retext_constructor VNull st1 = (Normal r2, st2) ∧
    ∃ p1 p2, p1 ≠ p2 ∧
             props st2 (Obj r1) "parser" = VRef p1 ∧
             props st2 (Obj r2) "parser" = VRef p2.
Proof.
  eexists _, _, _, _. split; [reflexivity|]. split; [reflexivity|].
  split; [reflexivity|]. split; [reflexivity|].
  destruct (Retext_constructor_defaults VUndefined VNull sample_store
              _ _ _ _ eq_refl eq_refl eq_refl eq_refl)
    as (p1 & t1 & p2 & t2 & Hne & _ & Hp1 & _ & _ & _ & Hp2 & _).
  exists p1, p2. split; [exact Hne|]. split; [exact Hp1 | exact Hp2].
Defined.
